(** * A shallow embedding of the OpenCog core of v8c

    The atom store ([AtomSpace], src/opencog/atomspace/atomspace.cc and
    atom.cc) and the agent orchestrator
    (src/opencog/agents/agent-orchestrator.cc, agent.cc) are translated
    function by function.  Locks are not modelled: every store operation
    runs under the store's single mutex, so each operation is one atomic
    state transformer. *)

From Stdlib Require Import ZArith String List Sorted Lia.
From stdpp Require Import gmap strings list fin_maps.

Local Open Scope string_scope.
Local Open Scope Z_scope.
Local Open Scope list_scope.

(** ** Atoms (include/opencog/atom.h, atom.cc) *)

Module Atoms.

Inductive AtomType : Type :=
| NODE
| LINK
| CONCEPT_NODE
| PREDICATE_NODE
| VARIABLE_NODE
| EVALUATION_LINK
| INHERITANCE_LINK
| SIMILARITY_LINK
| EXECUTION_LINK.

#[global] Instance AtomType_eq_dec : EqDecision AtomType.
Proof. solve_decision. Defined.

(** The enumerators' underlying values: the order of [std::multimap]'s keys. *)
Definition AtomType_value (t : AtomType) : Z :=
  match t with
  | NODE => 0
  | LINK => 1
  | CONCEPT_NODE => 2
  | PREDICATE_NODE => 3
  | VARIABLE_NODE => 4
  | EVALUATION_LINK => 5
  | INHERITANCE_LINK => 6
  | SIMILARITY_LINK => 7
  | EXECUTION_LINK => 8
  end.

(** The store only ever builds [Node] and [Link] objects.  A
    [shared_ptr<Atom>] is modelled by the object it points to; the truth
    value, the one mutable field, is read by no index operation and is left
    out. *)
#[warnings="-register-all"]
Inductive Atom : Type :=
| Node (type_ : AtomType) (name_ : string) (id_ : Z)
| Link (type_ : AtomType) (name_ : string) (id_ : Z) (outgoing_ : list Atom).

Definition type (a : Atom) : AtomType :=
  match a with Node t _ _ => t | Link t _ _ _ => t end.

Definition name (a : Atom) : string :=
  match a with Node _ n _ => n | Link _ n _ _ => n end.

Definition id (a : Atom) : Z :=
  match a with Node _ _ i => i | Link _ _ i _ => i end.

Definition IsNode (a : Atom) : bool :=
  match a with Node _ _ _ => true | Link _ _ _ _ => false end.

Definition IsLink (a : Atom) : bool :=
  match a with Node _ _ _ => false | Link _ _ _ _ => true end.

(** [uint64_t] arithmetic: [next_id_++] wraps at 2^64. *)
Definition UINT64_MOD : Z := 2 ^ 64.

Definition incr_uint64 (n : Z) : Z := (n + 1) mod UINT64_MOD.

(** [uint64_t Atom::next_id_ = 1;] *)
Definition initial_next_id_ : Z := 1.

(** [Atom::Atom]: [id_(next_id_++)].  The static counter is threaded
    explicitly: the constructors take it and return its new value. *)
Definition new_Node (type_ : AtomType) (name_ : string) (next_id_ : Z)
  : Atom * Z :=
  (Node type_ name_ next_id_, incr_uint64 next_id_).

Definition new_Link (type_ : AtomType) (name_ : string)
    (outgoing_ : list Atom) (next_id_ : Z) : Atom * Z :=
  (Link type_ name_ next_id_ outgoing_, incr_uint64 next_id_).

(** ** std::multimap<AtomType, shared_ptr<Atom>>

    Entries are kept in key order; [insert] puts a new entry at the upper
    bound of its key's range, so equal keys stay in insertion order. *)

Abbreviation multimap := (list (AtomType * Atom)) (only parsing).

Fixpoint multimap_insert (k : AtomType) (v : Atom) (m : multimap) : multimap :=
  match m with
  | [] => [(k, v)]
  | e :: m' =>
      if AtomType_value k <? AtomType_value (fst e)
      then (k, v) :: e :: m'
      else e :: multimap_insert k v m'
  end.

(** [equal_range(k)]: the entries whose key is [k], in container order. *)
Definition equal_range (k : AtomType) (m : multimap) : multimap :=
  filter (fun e => fst e = k) m.

(** The loop of [RemoveAtom]: walk [equal_range(k)], erase the first entry
    whose atom has the given id, and stop. *)
Fixpoint multimap_erase_id (k : AtomType) (i : Z) (m : multimap) : multimap :=
  match m with
  | [] => []
  | e :: m' =>
      if bool_decide (fst e = k) && (id (snd e) =? i)
      then m'
      else e :: multimap_erase_id k i m'
  end.

(** ** AtomSpace (include/opencog/atomspace.h, atomspace.cc) *)

Record AtomSpace : Type := mkAtomSpace {
  tenant_id_ : string;
  atoms_by_id_ : gmap Z Atom;
  atoms_by_name_ : gmap string Atom;
  atoms_by_type_ : multimap
}.

(** [AtomSpace::AtomSpace(tenant_id)] *)
Definition new_AtomSpace (tenant_id : string) : AtomSpace :=
  mkAtomSpace tenant_id ∅ ∅ [].

(** The test at the head of [AddNode]:
    [it != atoms_by_name_.end() && it->second->IsNode()]. *)
Definition find_node (name_ : string) (s : AtomSpace) : option Atom :=
  match atoms_by_name_ s !! name_ with
  | Some found => if IsNode found then Some found else None
  | None => None
  end.

Definition AddNode (type_ : AtomType) (name_ : string)
    (next_id_ : Z) (s : AtomSpace) : Atom * Z * AtomSpace :=
  match find_node name_ s with
  | Some found => (found, next_id_, s)
  | None =>
      let '(node, next_id') := new_Node type_ name_ next_id_ in
      (node, next_id',
       mkAtomSpace (tenant_id_ s)
         (<[id node := node]> (atoms_by_id_ s))
         (<[name_ := node]> (atoms_by_name_ s))
         (multimap_insert type_ node (atoms_by_type_ s)))
  end.

Definition AddLink (type_ : AtomType) (name_ : string)
    (outgoing : list Atom) (next_id_ : Z) (s : AtomSpace)
  : Atom * Z * AtomSpace :=
  let '(link, next_id') := new_Link type_ name_ outgoing next_id_ in
  (link, next_id',
   mkAtomSpace (tenant_id_ s)
     (<[id link := link]> (atoms_by_id_ s))
     (<[name_ := link]> (atoms_by_name_ s))
     (multimap_insert type_ link (atoms_by_type_ s))).

(** [None] is the null pointer returned on a miss. *)
Definition GetAtom (s : AtomSpace) (i : Z) : option Atom :=
  atoms_by_id_ s !! i.

Definition GetAtomByName (s : AtomSpace) (n : string) : option Atom :=
  atoms_by_name_ s !! n.

Definition GetAtomsByType (s : AtomSpace) (t : AtomType) : list Atom :=
  snd <$> equal_range t (atoms_by_type_ s).

Definition RemoveAtom (i : Z) (s : AtomSpace) : bool * AtomSpace :=
  match atoms_by_id_ s !! i with
  | None => (false, s)
  | Some atom =>
      (true,
       mkAtomSpace (tenant_id_ s)
         (delete i (atoms_by_id_ s))
         (delete (name atom) (atoms_by_name_ s))
         (multimap_erase_id (type atom) i (atoms_by_type_ s)))
  end.

Definition Clear (s : AtomSpace) : AtomSpace :=
  mkAtomSpace (tenant_id_ s) ∅ ∅ [].

Definition Size (s : AtomSpace) : nat := size (atoms_by_id_ s).

(** *** The consistency of the three indices

    What every store built by the operations above satisfies, relative to
    the current value of the id counter: the by-id index is keyed by the
    atoms' own ids, all of them handed out already; a by-name entry is keyed
    by its atom's name and its atom is in the by-id index; the by-id and
    by-type indices hold the same atoms, each once, under its own type. *)
Record store_inv (next_id_ : Z) (s : AtomSpace) : Prop := mk_store_inv {
  inv_id_key : forall i a, atoms_by_id_ s !! i = Some a -> id a = i;
  inv_id_old : forall i a, atoms_by_id_ s !! i = Some a -> i < next_id_;
  inv_name : forall n a,
    atoms_by_name_ s !! n = Some a ->
    name a = n /\ atoms_by_id_ s !! id a = Some a;
  inv_id_type : forall i a,
    atoms_by_id_ s !! i = Some a -> (type a, a) ∈ atoms_by_type_ s;
  inv_type_id : forall t a,
    (t, a) ∈ atoms_by_type_ s ->
    t = type a /\ atoms_by_id_ s !! id a = Some a;
  inv_type_once : NoDup ((fun e => id (snd e)) <$> atoms_by_type_ s)
}.

(** The counter has room for one more atom. *)
Definition counter_ok (next_id_ : Z) : Prop :=
  0 <= next_id_ /\ next_id_ + 1 < UINT64_MOD.

(** [AddNode] called once per requested type, always with the same name. *)
Fixpoint AddNode_each (types : list AtomType) (name_ : string)
    (next_id_ : Z) (s : AtomSpace) : list Atom * Z * AtomSpace :=
  match types with
  | [] => ([], next_id_, s)
  | t :: ts =>
      let '(a, next1, s1) := AddNode t name_ next_id_ s in
      let '(rest, next2, s2) := AddNode_each ts name_ next1 s1 in
      (a :: rest, next2, s2)
  end.

(** The scenario of the spec: a fresh store, [AddNode(CONCEPT_NODE, "X")],
    then [AddLink(INHERITANCE_LINK, "X", {node})]. *)
Definition node_X : Atom := Node CONCEPT_NODE "X" 1.
Definition link_X : Atom := Link INHERITANCE_LINK "X" 2 [node_X].

Definition store_X : AtomSpace :=
  snd (AddNode CONCEPT_NODE "X" initial_next_id_ (new_AtomSpace "tenant")).

Definition store_XX : AtomSpace :=
  snd (AddLink INHERITANCE_LINK "X" [node_X] 2 store_X).

(** [AtomSpace::Query]: one pass over [atoms_by_id_], keeping the atoms the
    predicate accepts.  The iteration order of [std::unordered_map] is not
    specified; the order [map_to_list] gives stands for it, and nothing
    below depends on which order it is. *)
Definition Query (predicate : Atom -> bool) (s : AtomSpace) : list Atom :=
  List.filter predicate (snd <$> map_to_list (atoms_by_id_ s)).

(** The enumerators of [AtomType], in declaration order. *)
Definition all_types : list AtomType :=
  [NODE; LINK; CONCEPT_NODE; PREDICATE_NODE; VARIABLE_NODE; EVALUATION_LINK;
   INHERITANCE_LINK; SIMILARITY_LINK; EXECUTION_LINK].

(** The order [std::multimap] keeps its entries in: keys never decrease. *)
Definition multimap_sorted (m : multimap) : Prop :=
  StronglySorted
    (fun e1 e2 => AtomType_value (fst e1) <= AtomType_value (fst e2)) m.

End Atoms.

(** ** The process: the static id counter and the stores of all tenants

    [Atom::next_id_] is one counter for the whole process;
    [AtomSpaceManager] maps tenants to their stores. *)

Module Process.
Import Atoms.

Record Process : Type := mkProcess {
  next_id_ : Z;
  atomspaces_ : gmap string AtomSpace
}.

Definition initial : Process := mkProcess initial_next_id_ ∅.

(** [AtomSpaceManager::GetOrCreateAtomSpace] *)
Definition GetOrCreateAtomSpace (tenant_id : string) (p : Process)
  : AtomSpace * Process :=
  match atomspaces_ p !! tenant_id with
  | Some s => (s, p)
  | None =>
      let atomspace := new_AtomSpace tenant_id in
      (atomspace,
       mkProcess (next_id_ p) (<[tenant_id := atomspace]> (atomspaces_ p)))
  end.

(** [AtomSpaceManager::GetAtomSpace] *)
Definition GetAtomSpace (tenant_id : string) (p : Process) : option AtomSpace :=
  atomspaces_ p !! tenant_id.

(** [AtomSpaceManager::RemoveAtomSpace] *)
Definition RemoveAtomSpace (tenant_id : string) (p : Process) : bool * Process :=
  (bool_decide (is_Some (atomspaces_ p !! tenant_id)),
   mkProcess (next_id_ p) (delete tenant_id (atomspaces_ p))).

(** [AtomSpaceManager::TenantCount] *)
Definition TenantCount (p : Process) : nat := size (atomspaces_ p).

(** A call on the store of a tenant, reached through the manager. *)
Inductive Call : Type :=
| CallAddNode (tenant : string) (type_ : AtomType) (name_ : string)
| CallAddLink (tenant : string) (type_ : AtomType) (name_ : string)
    (outgoing : list Atom)
| CallRemoveAtom (tenant : string) (i : Z)
| CallClear (tenant : string)
| CallRemoveAtomSpace (tenant : string).

(** The mutated store object is the one the manager holds. *)
Definition put (tenant : string) (s : AtomSpace) (next : Z) (p : Process)
  : Process :=
  mkProcess next (<[tenant := s]> (atomspaces_ p)).

(** One call; the first component is the id given to the atom the call
    constructed, if it constructed one. *)
Definition step (c : Call) (p : Process) : option Z * Process :=
  match c with
  | CallAddNode tenant t n =>
      let '(s, p1) := GetOrCreateAtomSpace tenant p in
      let '(a, next', s') := AddNode t n (next_id_ p1) s in
      (match find_node n s with Some _ => None | None => Some (id a) end,
       put tenant s' next' p1)
  | CallAddLink tenant t n out =>
      let '(s, p1) := GetOrCreateAtomSpace tenant p in
      let '(a, next', s') := AddLink t n out (next_id_ p1) s in
      (Some (id a), put tenant s' next' p1)
  | CallRemoveAtom tenant i =>
      let '(s, p1) := GetOrCreateAtomSpace tenant p in
      (None, put tenant (snd (RemoveAtom i s)) (next_id_ p1) p1)
  | CallClear tenant =>
      let '(s, p1) := GetOrCreateAtomSpace tenant p in
      (None, put tenant (Clear s) (next_id_ p1) p1)
  | CallRemoveAtomSpace tenant => (None, snd (RemoveAtomSpace tenant p))
  end.

(** A sequence of calls; the ids handed out, oldest first. *)
Fixpoint run (cs : list Call) (p : Process) : list Z * Process :=
  match cs with
  | [] => ([], p)
  | c :: cs' =>
      let '(o, p1) := step c p in
      let '(ids, p2) := run cs' p1 in
      (match o with Some i => i :: ids | None => ids end, p2)
  end.

(** *** Two calls that overlap

    [next_id_++] in [Atom::Atom] is a read of the static counter followed
    by a write.  A call holds the mutex of its own store only, so two
    threads working on the stores of two tenants are not kept apart: the
    second can read the counter after the first has read it and before the
    first has written it back.  Both calls then work with the same
    reading, each writes back that reading plus one, and the write that
    lands last stays. *)
Definition with_next_id (n : Z) (p : Process) : Process :=
  mkProcess n (atomspaces_ p).

Definition step_overlapping (c1 c2 : Call) (p : Process)
  : option Z * option Z * Process :=
  let reading := next_id_ p in
  let '(o1, p1) := step c1 p in
  let '(o2, p2) := step c2 (with_next_id reading p1) in
  (o1, o2,
   with_next_id
     (match o2 with Some _ => next_id_ p2 | None => next_id_ p1 end) p2).

(** Every store of the process has consistent indices. *)
Definition stores_inv (p : Process) : Prop :=
  forall tenant s,
    atomspaces_ p !! tenant = Some s -> store_inv (next_id_ p) s.

(** [AtomSpaceManager::GetTenantIds]: the keys of [atomspaces_], in the
    container's iteration order (unspecified for [std::unordered_map]). *)
Definition GetTenantIds (p : Process) : list string :=
  fst <$> map_to_list (atomspaces_ p).

(** The tenant whose store a call works on. *)
Definition call_tenant (c : Call) : string :=
  match c with
  | CallAddNode tenant _ _ => tenant
  | CallAddLink tenant _ _ _ => tenant
  | CallRemoveAtom tenant _ => tenant
  | CallClear tenant => tenant
  | CallRemoveAtomSpace tenant => tenant
  end.

(** Every store is held under the tenant id it was constructed with. *)
Definition tenants_inv (p : Process) : Prop :=
  forall tenant s, atomspaces_ p !! tenant = Some s -> tenant_id_ s = tenant.

(** Every store keeps its by-type index in key order. *)
Definition stores_sorted (p : Process) : Prop :=
  forall tenant s,
    atomspaces_ p !! tenant = Some s -> multimap_sorted (atoms_by_type_ s).

(** A process in which the first tenant has one node, and calls made for
    the second tenant only. *)
Definition first_tenant_only : Process :=
  snd (step (CallAddNode "tenant1" CONCEPT_NODE "X") initial).

Definition second_tenant_calls : list Call :=
  [CallAddNode "tenant2" CONCEPT_NODE "X";
   CallRemoveAtom "tenant2" 1;
   CallAddLink "tenant2" INHERITANCE_LINK "X" [];
   CallClear "tenant2";
   CallRemoveAtomSpace "tenant2"].

(** A run on two tenants with a dedupe hit, a removal and a clear. *)
Definition sample_calls : list Call :=
  [CallAddNode "tenant1" CONCEPT_NODE "X";
   CallAddNode "tenant1" PREDICATE_NODE "X";
   CallAddLink "tenant2" INHERITANCE_LINK "X" [];
   CallRemoveAtom "tenant1" 1;
   CallAddNode "tenant1" CONCEPT_NODE "X";
   CallClear "tenant2";
   CallAddNode "tenant2" CONCEPT_NODE "Y"].

End Process.

(** ** Agents and the orchestrator
    (include/opencog/agent.h, agent.cc, agent-orchestrator.cc) *)

Module Agents.

Inductive AgentState : Type := IDLE | RUNNING | PAUSED | COMPLETED | FAILED.

#[global] Instance AgentState_eq_dec : EqDecision AgentState.
Proof. solve_decision. Defined.

Record AgentMessage : Type := mkAgentMessage {
  from_agent_id : string;
  to_agent_id : string;
  type : string;
  payload : string;
  timestamp : Z
}.

(** The virtual methods of [Agent]. *)
Inductive Method : Type :=
| MInitialize
| MExecute
| MShutdown
| MOnMessage (message : AgentMessage).

Inductive Outcome : Type := Returns | Throws.

(** What one invocation of a virtual method does, as far as the
    orchestrator can tell: it may assign the protected field [state_], it
    may call [SendMessage] (each call reads the clock), and it returns or
    throws.  [r_result] is the value [Initialize] returns. *)
Record Reaction : Type := mkReaction {
  r_state : option AgentState;
  r_sends : list (string * string * string * Z);
  r_result : bool;
  r_outcome : Outcome
}.

(** An agent object.  [orchestrator_] is the pointer to the orchestrator
    ([false] is [nullptr]).  A subclass is given by its overrides,
    [vtable_]: they see the invocations the object has received so far
    ([history_], oldest first, which stands for the subclass's own fields)
    and the current [state_]. *)
Record Agent : Type := mkAgent {
  agent_id_ : string;
  tenant_id_ : string;
  state_ : AgentState;
  orchestrator_ : bool;
  history_ : list Method;
  vtable_ : list Method -> AgentState -> Method -> Reaction
}.

(** [Agent::Agent]: [state_(AgentState::IDLE), orchestrator_(nullptr)]. *)
Definition new_Agent (agent_id tenant_id : string)
    (vtable : list Method -> AgentState -> Method -> Reaction) : Agent :=
  mkAgent agent_id tenant_id IDLE false [] vtable.

Definition set_state (st : AgentState) (a : Agent) : Agent :=
  mkAgent (agent_id_ a) (tenant_id_ a) st (orchestrator_ a)
    (history_ a) (vtable_ a).

Definition set_orchestrator (o : bool) (a : Agent) : Agent :=
  mkAgent (agent_id_ a) (tenant_id_ a) (state_ a) o
    (history_ a) (vtable_ a).

(** The base class's bodies: [Initialize] sets [state_ = IDLE] and returns
    true, [Shutdown] sets [state_ = COMPLETED], [OnMessage] is empty;
    [Execute] is pure virtual and comes from the subclass. *)
Definition Agent_Initialize : Reaction := mkReaction (Some IDLE) [] true Returns.
Definition Agent_Shutdown : Reaction := mkReaction (Some COMPLETED) [] true Returns.
Definition Agent_OnMessage : Reaction := mkReaction None [] true Returns.

Definition base_vtable (Execute : list Method -> AgentState -> Reaction)
  : list Method -> AgentState -> Method -> Reaction :=
  fun h st m =>
    match m with
    | MInitialize => Agent_Initialize
    | MExecute => Execute h st
    | MShutdown => Agent_Shutdown
    | MOnMessage _ => Agent_OnMessage
    end.

(** The unit tests' [TestAgent]: [Execute] and [OnMessage] only count and
    record. *)
Definition TestAgent (agent_id tenant_id : string) : Agent :=
  new_Agent agent_id tenant_id
    (base_vtable (fun _ _ => mkReaction None [] true Returns)).

(** An agent whose [Execute] always throws. *)
Definition FaultyAgent (agent_id tenant_id : string) : Agent :=
  new_Agent agent_id tenant_id
    (base_vtable (fun _ _ => mkReaction None [] true Throws)).

(** A virtual call on the object: the override runs, the object records it. *)
Definition invoke (m : Method) (a : Agent) : Agent * Reaction :=
  let r := vtable_ a (history_ a) (state_ a) m in
  (mkAgent (agent_id_ a) (tenant_id_ a)
     (match r_state r with Some st => st | None => state_ a end)
     (orchestrator_ a) (history_ a ++ [m]) (vtable_ a),
   r).

(** The messages [Agent::SendMessage] routes for the calls a method made:
    none when the agent is not bound to an orchestrator. *)
Definition SendMessage (a : Agent) (send : string * string * string * Z)
  : list AgentMessage :=
  let '(to, ty, pl, now) := send in
  if orchestrator_ a then [mkAgentMessage (agent_id_ a) to ty pl now] else [].

Definition sent (a : Agent) (sends : list (string * string * string * Z))
  : list AgentMessage :=
  concat (map (SendMessage a) sends).

(** How often [Execute] has been invoked on the object. *)
Definition is_Execute (m : Method) : bool :=
  match m with MExecute => true | _ => false end.

Definition execute_count (a : Agent) : nat :=
  length (List.filter is_Execute (history_ a)).

(** The messages [OnMessage] has been given, oldest first (the test
    agent's [received_messages()]). *)
Definition received_messages (a : Agent) : list AgentMessage :=
  omap (fun m => match m with MOnMessage msg => Some msg | _ => None end)
    (history_ a).

End Agents.

Module Orchestrator.
Import Agents.

(** *** std::map<std::string, std::shared_ptr<Agent>>

    An association list in key order.  An entry holds the agent object
    itself, so a mutation of a registered object is a write at its key. *)

Abbreviation registry := (list (string * Agent)) (only parsing).

Fixpoint find (k : string) (m : registry) : option Agent :=
  match m with
  | [] => None
  | e :: m' => if String.eqb k (fst e) then Some (snd e) else find k m'
  end.

(** [m[k] = v] *)
Fixpoint insert (k : string) (v : Agent) (m : registry) : registry :=
  match m with
  | [] => [(k, v)]
  | e :: m' =>
      match String.compare k (fst e) with
      | Lt => (k, v) :: e :: m'
      | Eq => (k, v) :: m'
      | Gt => e :: insert k v m'
      end
  end.

Fixpoint erase (k : string) (m : registry) : registry :=
  match m with
  | [] => []
  | e :: m' => if String.eqb k (fst e) then m' else e :: erase k m'
  end.

(** The object registered under [k] has become [v]. *)
Fixpoint mutate (k : string) (v : Agent) (m : registry) : registry :=
  match m with
  | [] => []
  | e :: m' =>
      if String.eqb k (fst e) then (fst e, v) :: m' else e :: mutate k v m'
  end.

(** *** AgentOrchestrator *)

Record AgentOrchestrator : Type := mkOrchestrator {
  running_ : bool;
  agents_ : registry;
  message_queue_ : list AgentMessage;
  scheduled_agents_ : list string
}.

(** [AgentOrchestrator::AgentOrchestrator() : running_(false)] *)
Definition new_AgentOrchestrator : AgentOrchestrator :=
  mkOrchestrator false [] [] [].

(** How a call ends: with a value, or with an exception that leaves it. *)
Inductive Completion (A : Type) : Type :=
| Return (a : A)
| Raise.
Arguments Return {A} a.
Arguments Raise {A}.

Definition completion_of {A : Type} (out : Outcome) (a : A) : Completion A :=
  match out with Returns => Return a | Throws => Raise end.

Definition with_agents (m : registry) (o : AgentOrchestrator)
  : AgentOrchestrator :=
  mkOrchestrator (running_ o) m (message_queue_ o) (scheduled_agents_ o).

(** [message_queue_.push(message)], once per message. *)
Definition push_messages (ms : list AgentMessage) (o : AgentOrchestrator)
  : AgentOrchestrator :=
  mkOrchestrator (running_ o) (agents_ o) (message_queue_ o ++ ms)
    (scheduled_agents_ o).

Definition RouteMessage (message : AgentMessage) (o : AgentOrchestrator)
  : AgentOrchestrator :=
  push_messages [message] o.

Definition GetAgent (agent_id : string) (o : AgentOrchestrator)
  : option Agent :=
  find agent_id (agents_ o).

Definition RegisterAgent (agent : option Agent) (o : AgentOrchestrator)
  : Completion bool * AgentOrchestrator :=
  match agent with
  | None => (Return false, o)
  | Some a =>
      match find (agent_id_ a) (agents_ o) with
      | Some _ => (Return false, o)
      | None =>
          let bound := set_orchestrator true a in
          let '(a', r) := invoke MInitialize bound in
          (completion_of (r_outcome r) (r_result r),
           push_messages (sent bound (r_sends r))
             (with_agents (insert (agent_id_ a) a' (agents_ o)) o))
      end
  end.

(** [Shutdown()] runs before the erase: when it throws, the agent stays. *)
Definition UnregisterAgent (agent_id : string) (o : AgentOrchestrator)
  : Completion bool * AgentOrchestrator :=
  match find agent_id (agents_ o) with
  | None => (Return false, o)
  | Some a =>
      let '(a', r) := invoke MShutdown a in
      let o' := push_messages (sent a (r_sends r)) o in
      match r_outcome r with
      | Returns => (Return true, with_agents (erase agent_id (agents_ o)) o')
      | Throws => (Raise, with_agents (mutate agent_id a' (agents_ o)) o')
      end
  end.

Definition GetAgentsByTenant (tenant_id : string) (o : AgentOrchestrator)
  : list Agent :=
  map snd
    (List.filter (fun e => String.eqb (tenant_id_ (snd e)) tenant_id)
       (agents_ o)).

(** The worker thread itself is not modelled: [Start] and [Stop] set the
    flag the loop tests. *)
Definition Start (o : AgentOrchestrator) : AgentOrchestrator :=
  if running_ o then o
  else mkOrchestrator true (agents_ o) (message_queue_ o) (scheduled_agents_ o).

Definition Stop (o : AgentOrchestrator) : AgentOrchestrator :=
  if running_ o
  then mkOrchestrator false (agents_ o) (message_queue_ o) (scheduled_agents_ o)
  else o.

(** The loop of [BroadcastMessage] over [agents_]; [now k] is the clock
    reading taken for the [k]-th message built. *)
Fixpoint broadcast (from_agent_id type_ payload_ : string) (now : nat -> Z)
    (k : nat) (m : registry) : list AgentMessage :=
  match m with
  | [] => []
  | e :: m' =>
      if String.eqb (fst e) from_agent_id
      then broadcast from_agent_id type_ payload_ now k m'
      else mkAgentMessage from_agent_id (fst e) type_ payload_ (now k)
             :: broadcast from_agent_id type_ payload_ now (S k) m'
  end.

Definition BroadcastMessage (from_agent_id type_ payload_ : string)
    (now : nat -> Z) (o : AgentOrchestrator) : AgentOrchestrator :=
  push_messages (broadcast from_agent_id type_ payload_ now 0 (agents_ o)) o.

Definition ScheduleAgent (agent_id : string) (o : AgentOrchestrator)
  : AgentOrchestrator :=
  mkOrchestrator (running_ o) (agents_ o) (message_queue_ o)
    (scheduled_agents_ o ++ [agent_id]).

(** The second loop of [ProcessMessageQueue], over the messages copied
    out.  [OnMessage] is called outside any [try]: when it throws, the
    remaining messages are lost and the exception leaves the function. *)
Fixpoint deliver (messages : list AgentMessage) (o : AgentOrchestrator)
  : Completion unit * AgentOrchestrator :=
  match messages with
  | [] => (Return tt, o)
  | message :: rest =>
      match GetAgent (to_agent_id message) o with
      | None => deliver rest o
      | Some agent =>
          let '(agent', r) := invoke (MOnMessage message) agent in
          let o' :=
            push_messages (sent agent (r_sends r))
              (with_agents (mutate (to_agent_id message) agent' (agents_ o)) o) in
          match r_outcome r with
          | Returns => deliver rest o'
          | Throws => (Raise, o')
          end
      end
  end.

Definition ProcessMessageQueue (o : AgentOrchestrator)
  : Completion unit * AgentOrchestrator :=
  deliver (message_queue_ o)
    (mkOrchestrator (running_ o) (agents_ o) [] (scheduled_agents_ o)).

(** The first block of the loop body: pop at most one scheduled id;
    [agent_id] stays empty when nothing is scheduled. *)
Definition pop_scheduled (o : AgentOrchestrator) : string * AgentOrchestrator :=
  match scheduled_agents_ o with
  | [] => ("", o)
  | agent_id :: rest =>
      (agent_id,
       mkOrchestrator (running_ o) (agents_ o) (message_queue_ o) rest)
  end.

(** The second block: the dispatch with its [try] / [catch (...)]. *)
Definition dispatch (agent_id : string) (o : AgentOrchestrator)
  : AgentOrchestrator :=
  if String.eqb agent_id "" then o
  else
    match GetAgent agent_id o with
    | None => o
    | Some agent =>
        if bool_decide (state_ agent = IDLE) then
          let running := set_state RUNNING agent in
          let '(agent', r) := invoke MExecute running in
          let final :=
            match r_outcome r with
            | Returns => set_state IDLE agent'
            | Throws => set_state FAILED agent'
            end in
          push_messages (sent running (r_sends r))
            (with_agents (mutate agent_id final (agents_ o)) o)
        else o
    end.

(** One pass through the body of [OrchestratorLoop]'s [while]. *)
Definition OrchestratorLoop_body (o : AgentOrchestrator)
  : Completion unit * AgentOrchestrator :=
  match ProcessMessageQueue o with
  | (Return _, o1) =>
      let '(agent_id, o2) := pop_scheduled o1 in
      (Return tt, dispatch agent_id o2)
  | (Raise, o1) => (Raise, o1)
  end.

(** *** Runs

    The calls of the public surface, and one step of the worker.  The
    worker steps only while [running_] holds.  An exception that leaves the
    worker's loop ends the process ([None]); one that leaves
    [RegisterAgent] or [UnregisterAgent] goes to their caller. *)
Inductive Event : Type :=
| EvRegisterAgent (agent : option Agent)
| EvUnregisterAgent (agent_id : string)
| EvStart
| EvStop
| EvRouteMessage (message : AgentMessage)
| EvBroadcastMessage (from_agent_id type_ payload_ : string) (now : nat -> Z)
| EvScheduleAgent (agent_id : string)
| EvWorker.

Definition exec (e : Event) (o : AgentOrchestrator) : option AgentOrchestrator :=
  match e with
  | EvRegisterAgent agent => Some (snd (RegisterAgent agent o))
  | EvUnregisterAgent agent_id => Some (snd (UnregisterAgent agent_id o))
  | EvStart => Some (Start o)
  | EvStop => Some (Stop o)
  | EvRouteMessage message => Some (RouteMessage message o)
  | EvBroadcastMessage f t p now => Some (BroadcastMessage f t p now o)
  | EvScheduleAgent agent_id => Some (ScheduleAgent agent_id o)
  | EvWorker =>
      if running_ o then
        match OrchestratorLoop_body o with
        | (Return _, o') => Some o'
        | (Raise, _) => None
        end
      else Some o
  end.

Fixpoint run (es : list Event) (o : AgentOrchestrator)
  : option AgentOrchestrator :=
  match es with
  | [] => Some o
  | e :: es' =>
      match exec e o with
      | Some o' => run es' o'
      | None => None
      end
  end.

(** The results of registering the given agents one after the other. *)
Fixpoint register_all (agents : list Agent) (o : AgentOrchestrator)
  : list (Completion bool) * AgentOrchestrator :=
  match agents with
  | [] => ([], o)
  | a :: rest =>
      let '(c, o1) := RegisterAgent (Some a) o in
      let '(cs, o2) := register_all rest o1 in
      (c :: cs, o2)
  end.

Definition succeeded (c : Completion bool) : bool :=
  match c with Return true => true | _ => false end.

Definition successes (cs : list (Completion bool)) : nat :=
  length (List.filter succeeded cs).

(** What [std::map] guarantees of [agents_], and what [RegisterAgent]
    adds: keys are unique, and an agent is stored under its own id. *)
Definition registry_ok (m : registry) : Prop :=
  NoDup (map fst m) /\ Forall (fun e => agent_id_ (snd e) = fst e) m.

Definition registry_inv (o : AgentOrchestrator) : Prop :=
  registry_ok (agents_ o).

(** The filter of [BroadcastMessage]'s loop: [pair.first != from_agent_id]. *)
Definition other_than (from_agent_id : string) (k : string) : bool :=
  negb (String.eqb k from_agent_id).

(** The hypotheses on an agent's overrides used below. *)
Definition Execute_always_throws (a : Agent) : Prop :=
  forall h st, r_outcome (vtable_ a h st MExecute) = Throws.

Definition OnMessage_keeps_state (a : Agent) : Prop :=
  forall h st message, r_state (vtable_ a h st (MOnMessage message)) = None.

(** The agent registered under [agent_id] is the object [a] after zero
    dispatches, still [IDLE], or after exactly one, and then [FAILED]. *)
Definition dispatched_at_most_once (agent_id : string) (a : Agent)
    (o : AgentOrchestrator) : Prop :=
  exists a', GetAgent agent_id o = Some a' /\
    vtable_ a' = vtable_ a /\
    ((state_ a' = IDLE /\ execute_count a' = execute_count a) \/
     (state_ a' = FAILED /\ execute_count a' = S (execute_count a))).

(** An agent whose [Initialize] override returns false and does nothing
    else. *)
Definition RefusingAgent (agent_id tenant_id : string) : Agent :=
  new_Agent agent_id tenant_id
    (fun h st m =>
       match m with
       | MInitialize => mkReaction None [] false Returns
       | _ => base_vtable (fun _ _ => mkReaction None [] true Returns) h st m
       end).

(** An agent whose [Execute] sends the agent itself a message and then
    throws, on every invocation, and whose [OnMessage] assigns
    [state_ = AgentState::IDLE]; registered with a fresh orchestrator. *)
Definition RelapsingAgent (agent_id tenant_id : string) : Agent :=
  new_Agent agent_id tenant_id
    (fun h st m =>
       match m with
       | MInitialize => Agent_Initialize
       | MExecute => mkReaction None [(agent_id, "wake", "again", 0)] true Throws
       | MShutdown => Agent_Shutdown
       | MOnMessage _ => mkReaction (Some IDLE) [] true Returns
       end).

Definition relapsing_registered : AgentOrchestrator :=
  snd (RegisterAgent (Some (RelapsingAgent "relapse" "tenant1"))
         new_AgentOrchestrator).

(** Where the worker's first pass after one [ScheduleAgent] leaves that
    orchestrator, and where two more [ScheduleAgent] calls, each followed
    by one pass, lead from there. *)
Definition relapsing_failed : AgentOrchestrator :=
  match run [EvStart; EvScheduleAgent "relapse"; EvWorker]
          relapsing_registered with
  | Some o => o
  | None => relapsing_registered
  end.

Definition relapsing_again : AgentOrchestrator :=
  match run [EvScheduleAgent "relapse"; EvWorker;
             EvScheduleAgent "relapse"; EvWorker] relapsing_failed with
  | Some o => o
  | None => relapsing_failed
  end.

(** A faulty agent registered with a fresh orchestrator, and a run that
    starts the worker and schedules the agent three times. *)
Definition faulty_registered : AgentOrchestrator :=
  snd (RegisterAgent (Some (FaultyAgent "faulty" "tenant1"))
         new_AgentOrchestrator).

Definition faulty_events : list Event :=
  [EvStart; EvScheduleAgent "faulty"; EvWorker; EvScheduleAgent "faulty";
   EvScheduleAgent "faulty"; EvWorker; EvWorker; EvWorker].

(** The order of [std::map<std::string, ...>]: [std::less<std::string>],
    the lexicographic order on the characters' codes. *)
Definition string_lt (s1 s2 : string) : Prop := String.compare s1 s2 = Lt.

(** The keys come in strictly ascending order. *)
Definition keys_ascending (m : registry) : Prop :=
  StronglySorted string_lt (map fst m).

(** An agent whose [OnMessage] never throws. *)
Definition OnMessage_never_throws (a : Agent) : Prop :=
  forall h st message,
    r_outcome (vtable_ a h st (MOnMessage message)) = Returns.

(** An agent whose [Execute] always returns and sends no message. *)
Definition Execute_returns_quietly (a : Agent) : Prop :=
  forall h st,
    r_outcome (vtable_ a h st MExecute) = Returns /\
    r_sends (vtable_ a h st MExecute) = [].

(** An agent whose [Shutdown] never throws. *)
Definition Shutdown_never_throws (a : Agent) : Prop :=
  forall h st, r_outcome (vtable_ a h st MShutdown) = Returns.

(** The messages of a queue addressed to one id, in queue order. *)
Definition addressed_to (agent_id : string) (messages : list AgentMessage)
  : list AgentMessage :=
  List.filter (fun message => String.eqb (to_agent_id message) agent_id)
    messages.

(** How often [Execute] has been invoked on the registered agents, all
    together. *)
Definition total_executes (o : AgentOrchestrator) : nat :=
  list_sum (map (fun e => execute_count (snd e)) (agents_ o)).

(** A test agent registered under the empty id, and a run that schedules
    it twice. *)
Definition nameless_registered : AgentOrchestrator :=
  snd (RegisterAgent (Some (TestAgent "" "tenant1")) new_AgentOrchestrator).

Definition nameless_events : list Event :=
  [EvStart; EvScheduleAgent ""; EvWorker; EvScheduleAgent ""; EvWorker;
   EvWorker].

(** The orchestrator of the unit tests after three registrations. *)
Definition three_agents : AgentOrchestrator :=
  snd (register_all
         [TestAgent "agent1" "tenant1"; TestAgent "agent2" "tenant1";
          TestAgent "agent3" "tenant1"]
         new_AgentOrchestrator).

(** The same orchestrator, started, with the second agent scheduled three
    times. *)
Definition three_agents_scheduled : AgentOrchestrator :=
  ScheduleAgent "agent2"
    (ScheduleAgent "agent2" (ScheduleAgent "agent2" (Start three_agents))).

(** The same orchestrator with four messages routed, one of them to an id
    that is not registered. *)
Definition three_agents_with_mail : AgentOrchestrator :=
  RouteMessage (mkAgentMessage "agent1" "agent3" "note" "third" 3)
    (RouteMessage (mkAgentMessage "agent1" "nobody" "note" "lost" 2)
       (RouteMessage (mkAgentMessage "agent3" "agent2" "note" "second" 1)
          (RouteMessage (mkAgentMessage "agent1" "agent2" "note" "first" 0)
             three_agents))).

(** Three registrations made in descending order of the ids, and where
    they leave a new orchestrator. *)
Definition descending_registrations : list Event :=
  [EvRegisterAgent (Some (TestAgent "zeta" "tenant1"));
   EvRegisterAgent (Some (TestAgent "mu" "tenant2"));
   EvRegisterAgent (Some (TestAgent "alpha" "tenant1"))].

Definition descending_final : AgentOrchestrator :=
  match run descending_registrations new_AgentOrchestrator with
  | Some o => o
  | None => new_AgentOrchestrator
  end.

(** An agent whose [OnMessage] throws, registered next to a test agent,
    with one message queued for each. *)
Definition TouchyAgent (agent_id tenant_id : string) : Agent :=
  new_Agent agent_id tenant_id
    (fun h st m =>
       match m with
       | MOnMessage _ => mkReaction None [] true Throws
       | _ => base_vtable (fun _ _ => mkReaction None [] true Returns) h st m
       end).

Definition touchy_with_mail : AgentOrchestrator :=
  RouteMessage (mkAgentMessage "touchy" "agent1" "note" "never read" 1)
    (RouteMessage (mkAgentMessage "agent1" "touchy" "note" "boom" 0)
       (snd (register_all
               [TestAgent "agent1" "tenant1"; TouchyAgent "touchy" "tenant1"]
               new_AgentOrchestrator))).

(** Where the run [nameless_events] leaves the orchestrator. *)
Definition nameless_final : AgentOrchestrator :=
  match run nameless_events nameless_registered with
  | Some o => o
  | None => nameless_registered
  end.

(** The agent registered under the empty id has had [Execute] invoked [n]
    times. *)
Definition nameless_executes (n : nat) (o : AgentOrchestrator) : Prop :=
  exists a, GetAgent "" o = Some a /\ execute_count a = n.

End Orchestrator.

(** ** AgentFactory (include/opencog/agent.h, agent.cc) *)

Module Factory.
Import Agents.

(** An [AgentCreator] builds an agent from an agent id and a tenant id, or
    returns the null pointer.  Building an agent runs [Agent::Agent], which
    asks the store manager for the tenant's store, so a creator acts on the
    process. *)
Abbreviation AgentCreator :=
  (string -> string -> Process.Process -> option Agent * Process.Process)
  (only parsing).

(** [Agent::Agent]: the fields are initialised and
    [AtomSpaceManager::GetInstance()->GetOrCreateAtomSpace(tenant_id)] is
    called.  The agent's [atomspace_] is the store the manager holds under
    its tenant id. *)
Definition construct_Agent
    (vtable : list Method -> AgentState -> Method -> Reaction)
    (agent_id tenant_id : string) (p : Process.Process)
  : Agent * Process.Process :=
  (new_Agent agent_id tenant_id vtable,
   snd (Process.GetOrCreateAtomSpace tenant_id p)).

(** The creator of the unit tests:
    [return std::make_shared<TestAgent>(id, tenant);] for a subclass with
    the given overrides. *)
Definition make_shared_creator
    (vtable : list Method -> AgentState -> Method -> Reaction) : AgentCreator :=
  fun agent_id tenant_id p =>
    let '(a, p') := construct_Agent vtable agent_id tenant_id p in
    (Some a, p').

Record AgentFactory : Type := mkAgentFactory {
  creators_ : gmap string AgentCreator
}.

Definition new_AgentFactory : AgentFactory := mkAgentFactory ∅.

(** [creators_[type] = creator;] *)
Definition RegisterAgentType (type_ : string) (creator : AgentCreator)
    (f : AgentFactory) : AgentFactory :=
  mkAgentFactory (<[type_ := creator]> (creators_ f)).

Definition CreateAgent (type_ agent_id tenant_id : string)
    (f : AgentFactory) (p : Process.Process)
  : option Agent * Process.Process :=
  match creators_ f !! type_ with
  | Some creator => creator agent_id tenant_id p
  | None => (None, p)
  end.

End Factory.

(** * Properties of the atom store *)

Module AtomsProofs.
Import Atoms.

Lemma incr_uint64_no_wrap (n : Z) : counter_ok n -> incr_uint64 n = n + 1.
Proof.
  intros [H0 H1]. unfold incr_uint64. apply Z.mod_small. lia.
Qed.

(** *** The multimap *)

Lemma multimap_insert_perm (k : AtomType) (v : Atom) (m : multimap) :
  multimap_insert k v m ≡ₚ (k, v) :: m.
Proof.
  induction m as [|e m IH]; simpl; [done|].
  destruct (AtomType_value k <? AtomType_value (fst e)); [done|].
  rewrite IH. apply Permutation_swap.
Qed.

Lemma elem_of_multimap_insert (k : AtomType) (v : Atom) (m : multimap) e :
  e ∈ multimap_insert k v m <-> e = (k, v) \/ e ∈ m.
Proof. rewrite multimap_insert_perm. apply elem_of_cons. Qed.

Lemma equal_range_insert_ne (k k' : AtomType) (v : Atom) (m : multimap) :
  k <> k' -> equal_range k' (multimap_insert k v m) = equal_range k' m.
Proof.
  intros Hne. unfold equal_range.
  induction m as [|e m IH]; cbn [multimap_insert].
  - by rewrite filter_cons_False.
  - destruct (AtomType_value k <? AtomType_value (fst e)).
    + by rewrite (filter_cons_False _ (k, v)).
    + rewrite !(filter_cons _ e). by rewrite IH.
Qed.

Lemma filter_all {A : Type} (P : A -> Prop) `{!forall x, Decision (P x)}
    (l : list A) :
  (forall x, x ∈ l -> P x) -> filter P l = l.
Proof.
  induction l as [|x l IH]; intros Hall; [done|].
  rewrite filter_cons_True by (apply Hall; left).
  f_equal. apply IH. intros y Hy. apply Hall. by right.
Qed.

Lemma multimap_erase_id_filter (k : AtomType) (i : Z) (m : multimap) :
  (forall e, e ∈ m -> id (snd e) = i -> fst e = k) ->
  NoDup ((fun e => id (snd e)) <$> m) ->
  multimap_erase_id k i m = filter (fun e => id (snd e) <> i) m.
Proof.
  induction m as [|e m IH]; intros Hk Hnd; simpl; [done|].
  rewrite fmap_cons in Hnd. apply NoDup_cons in Hnd as [Hnotin Hnd].
  destruct (bool_decide (fst e = k) && (id (snd e) =? i)) eqn:Hc.
  - apply andb_true_iff in Hc as [_ Hi]. apply Z.eqb_eq in Hi.
    rewrite filter_cons_False by (intros H; apply H; exact Hi).
    symmetry. apply filter_all. intros x Hx Hxi.
    apply Hnotin. rewrite Hi, <- Hxi.
    by apply (list_elem_of_fmap_2 (fun e => id (snd e))).
  - rewrite filter_cons_True.
    + f_equal. apply IH; [|done].
      intros x Hx. apply Hk. by right.
    + intros Hi. apply andb_false_iff in Hc as [Hc|Hc].
      * apply bool_decide_eq_false in Hc. apply Hc, Hk; [left|done].
      * apply Z.eqb_neq in Hc. done.
Qed.

(** *** The invariant holds initially and is kept by every operation *)

Lemma store_inv_new (next : Z) (tenant : string) :
  store_inv next (new_AtomSpace tenant).
Proof.
  split; simpl; try (intros; simplify_map_eq; fail).
  - intros t a H. by apply elem_of_nil in H.
  - constructor.
Qed.

Lemma store_inv_mono (next next' : Z) (s : AtomSpace) :
  next <= next' -> store_inv next s -> store_inv next' s.
Proof.
  intros Hle [H1 H2 H3 H4 H5 H6]. split; try done.
  intros i a Hi. specialize (H2 i a Hi). lia.
Qed.

Lemma store_inv_fresh (next : Z) (s : AtomSpace) (i : Z) :
  store_inv next s -> next <= i -> atoms_by_id_ s !! i = None.
Proof.
  intros Hinv Hle. destruct (atoms_by_id_ s !! i) as [a|] eqn:Hi; [|done].
  apply (inv_id_old _ _ Hinv) in Hi. lia.
Qed.

(** The three insertions shared by [AddNode] and [AddLink]. *)
Lemma store_inv_add (next next' : Z) (s : AtomSpace) (a : Atom) :
  store_inv next s -> id a = next -> next < next' ->
  store_inv next'
    (mkAtomSpace (tenant_id_ s)
       (<[id a := a]> (atoms_by_id_ s))
       (<[name a := a]> (atoms_by_name_ s))
       (multimap_insert (type a) a (atoms_by_type_ s))).
Proof.
  intros Hinv Hid Hlt.
  assert (Hold : forall b, atoms_by_id_ s !! id b = Some b -> id b <> id a).
  { intros b Hb. apply (inv_id_old _ _ Hinv) in Hb. lia. }
  split; simpl.
  - intros i b. rewrite lookup_insert. case_decide; [naive_solver|].
    apply (inv_id_key _ _ Hinv).
  - intros i b. rewrite lookup_insert. case_decide; [intros _; lia|].
    intros Hb. apply (inv_id_old _ _ Hinv) in Hb. lia.
  - intros n b. rewrite lookup_insert. case_decide.
    + intros [= <-]. split; [done|]. apply lookup_insert_eq.
    + intros Hb. apply (inv_name _ _ Hinv) in Hb as [Hn Hb]. split; [done|].
      rewrite lookup_insert_ne; [done|]. intros Heq. by apply (Hold b).
  - intros i b. rewrite lookup_insert, elem_of_multimap_insert.
    case_decide; [intros [= <-]; by left|].
    intros Hb. right. by apply (inv_id_type _ _ Hinv i).
  - intros t b. rewrite elem_of_multimap_insert. intros [[= -> ->]|Hb].
    + split; [done|]. apply lookup_insert_eq.
    + apply (inv_type_id _ _ Hinv) in Hb as [Ht Hb]. split; [done|].
      rewrite lookup_insert_ne; [done|]. intros Heq. by apply (Hold b).
  - rewrite multimap_insert_perm, fmap_cons. apply NoDup_cons. split.
    + intros Hin. apply list_elem_of_fmap in Hin as [[t b] [Heq Hb]].
      simpl in Heq. apply (inv_type_id _ _ Hinv) in Hb as [_ Hb].
      by apply (Hold b).
    + apply (inv_type_once _ _ Hinv).
Qed.

Lemma AddLink_inv (next : Z) (s : AtomSpace) t n out :
  store_inv next s -> counter_ok next ->
  store_inv (snd (fst (AddLink t n out next s))) (snd (AddLink t n out next s)).
Proof.
  intros Hinv Hok. unfold AddLink, new_Link. simpl.
  rewrite incr_uint64_no_wrap by done.
  apply (store_inv_add next (next + 1) s (Link t n next out)); [done..|lia].
Qed.

Lemma AddNode_inv (next : Z) (s : AtomSpace) t n :
  store_inv next s -> counter_ok next ->
  store_inv (snd (fst (AddNode t n next s))) (snd (AddNode t n next s)).
Proof.
  intros Hinv Hok. unfold AddNode, new_Node.
  destruct (find_node n s); simpl; [done|].
  rewrite incr_uint64_no_wrap by done.
  apply (store_inv_add next (next + 1) s (Node t n next)); [done..|lia].
Qed.

Lemma Clear_inv (next : Z) (s : AtomSpace) : store_inv next (Clear s).
Proof. apply store_inv_new. Qed.

Lemma RemoveAtom_inv (next : Z) (s : AtomSpace) (i : Z) :
  store_inv next s -> store_inv next (snd (RemoveAtom i s)).
Proof.
  intros Hinv. unfold RemoveAtom.
  destruct (atoms_by_id_ s !! i) as [a|] eqn:Ha; simpl; [|done].
  assert (Herase : multimap_erase_id (type a) i (atoms_by_type_ s)
                   = filter (fun e => id (snd e) <> i) (atoms_by_type_ s)).
  { apply multimap_erase_id_filter; [|apply (inv_type_once _ _ Hinv)].
    intros [t b] Hb Hi. simpl in *.
    apply (inv_type_id _ _ Hinv) in Hb as [-> Hb].
    rewrite Hi, Ha in Hb. by injection Hb as ->. }
  rewrite Herase. split; simpl.
  - intros j b. rewrite lookup_delete. case_decide; [done|].
    apply (inv_id_key _ _ Hinv).
  - intros j b. rewrite lookup_delete. case_decide; [done|].
    apply (inv_id_old _ _ Hinv).
  - intros n b. rewrite lookup_delete. case_decide; [done|].
    intros Hb. apply (inv_name _ _ Hinv) in Hb as [Hn Hb]. split; [done|].
    rewrite lookup_delete_ne; [done|]. intros Heq.
    rewrite <- Heq, Ha in Hb. injection Hb as ->. done.
  - intros j b. rewrite lookup_delete. case_decide; [done|].
    intros Hb. apply list_elem_of_filter. split.
    + simpl. rewrite (inv_id_key _ _ Hinv _ _ Hb). done.
    + by apply (inv_id_type _ _ Hinv j).
  - intros t b Hb. apply list_elem_of_filter in Hb as [Hi Hb]. simpl in Hi.
    apply (inv_type_id _ _ Hinv) in Hb as [Ht Hb]. split; [done|].
    by rewrite lookup_delete_ne.
  - apply NoDup_fmap_2_strong.
    + intros x y Hx Hy Heq.
      apply list_elem_of_filter in Hx as [_ Hx].
      apply list_elem_of_filter in Hy as [_ Hy].
      pose proof (inv_type_once _ _ Hinv) as Hnd.
      destruct x as [tx x], y as [ty y]. simpl in Heq.
      pose proof Hx as Hx'. pose proof Hy as Hy'.
      apply (inv_type_id _ _ Hinv) in Hx' as [-> Hx'].
      apply (inv_type_id _ _ Hinv) in Hy' as [-> Hy'].
      rewrite Heq, Hy' in Hx'. by injection Hx' as ->.
    + apply NoDup_filter. eapply NoDup_fmap_1, (inv_type_once _ _ Hinv).
Qed.

(** *** Reading the indices *)

Lemma elem_of_GetAtomsByType (s : AtomSpace) (t : AtomType) (a : Atom) :
  a ∈ GetAtomsByType s t <-> (t, a) ∈ atoms_by_type_ s.
Proof.
  unfold GetAtomsByType, equal_range. rewrite list_elem_of_fmap. split.
  - intros [[t' b] [-> Hb]]. apply list_elem_of_filter in Hb as [Ht Hb].
    simpl in *. by subst.
  - intros Ha. exists (t, a). split; [done|].
    apply list_elem_of_filter. by split.
Qed.

Lemma GetAtomsByType_filter (i : Z) (t : AtomType) (m : multimap) :
  snd <$> equal_range t (filter (fun e => id (snd e) <> i) m)
  = filter (fun b => id b <> i) (snd <$> equal_range t m).
Proof.
  unfold equal_range. induction m as [|e m IH]; [done|].
  rewrite (filter_cons (fun e => id (snd e) <> i)).
  rewrite (filter_cons (fun e => fst e = t) e m).
  destruct (decide (id (snd e) <> i)) as [HP|HP],
           (decide (fst e = t)) as [Ht|Ht].
  - rewrite filter_cons_True by done. rewrite !fmap_cons.
    rewrite filter_cons_True by done. by rewrite IH.
  - rewrite filter_cons_False by done. done.
  - rewrite fmap_cons, filter_cons_False by done. done.
  - done.
Qed.

Lemma store_X_inv : store_inv 2 store_X.
Proof.
  apply (AddNode_inv 1 (new_AtomSpace "tenant") CONCEPT_NODE "X").
  - apply store_inv_new.
  - unfold counter_ok, UINT64_MOD. lia.
Qed.

Lemma store_XX_inv : store_inv 3 store_XX.
Proof.
  apply (AddLink_inv 2 store_X INHERITANCE_LINK "X" [node_X]).
  - apply store_X_inv.
  - unfold counter_ok, UINT64_MOD. lia.
Qed.

(** *** RemoveAtom *)

(** Claim C1, as the code has it.  For a store whose indices are consistent
    and an atom [a] stored under id [i], [RemoveAtom(i)] returns true and
    - removes the by-id entry of [i] and no other;
    - erases the by-name entry stored under [a]'s name, whichever atom that
      entry refers to, and no entry under another name;
    - removes [a] from the by-type index and leaves every other entry in
      place and in order; the buckets of the other types are untouched. *)
Theorem RemoveAtom_frame (next : Z) (s : AtomSpace) (i : Z) (a : Atom) :
  store_inv next s ->
  GetAtom s i = Some a ->
  exists s', RemoveAtom i s = (true, s') /\
    atoms_by_id_ s' = delete i (atoms_by_id_ s) /\
    atoms_by_name_ s' = delete (name a) (atoms_by_name_ s) /\
    (forall j, j <> i -> GetAtom s' j = GetAtom s j) /\
    (forall n, n <> name a -> GetAtomByName s' n = GetAtomByName s n) /\
    GetAtomByName s' (name a) = None /\
    (forall t, GetAtomsByType s' t
               = filter (fun b => id b <> i) (GetAtomsByType s t)) /\
    (forall t, t <> type a -> GetAtomsByType s' t = GetAtomsByType s t) /\
    a ∉ GetAtomsByType s' (type a).
Proof.
  intros Hinv Ha. unfold GetAtom in Ha.
  assert (Herase : multimap_erase_id (type a) i (atoms_by_type_ s)
                   = filter (fun e => id (snd e) <> i) (atoms_by_type_ s)).
  { apply multimap_erase_id_filter; [|apply (inv_type_once _ _ Hinv)].
    intros [t b] Hb Hi. simpl in *.
    apply (inv_type_id _ _ Hinv) in Hb as [-> Hb].
    rewrite Hi, Ha in Hb. by injection Hb as ->. }
  assert (Hbucket : forall t, GetAtomsByType
            (mkAtomSpace (tenant_id_ s) (delete i (atoms_by_id_ s))
               (delete (name a) (atoms_by_name_ s))
               (multimap_erase_id (type a) i (atoms_by_type_ s))) t
            = filter (fun b => id b <> i) (GetAtomsByType s t)).
  { intros t. unfold GetAtomsByType. simpl. rewrite Herase.
    apply GetAtomsByType_filter. }
  eexists. unfold RemoveAtom. rewrite Ha. split; [reflexivity|].
  repeat split; try done.
  - intros j Hj. unfold GetAtom. simpl. by apply lookup_delete_ne.
  - intros n Hn. unfold GetAtomByName. simpl. by apply lookup_delete_ne.
  - unfold GetAtomByName. simpl. apply lookup_delete_eq.
  - intros t Ht. rewrite Hbucket. apply filter_all.
    intros b Hb Hi. apply elem_of_GetAtomsByType in Hb.
    apply (inv_type_id _ _ Hinv) in Hb as [-> Hb].
    rewrite Hi, Ha in Hb. injection Hb as ->. done.
  - rewrite Hbucket. intros Hin. apply list_elem_of_filter in Hin as [Hi _].
    apply Hi. apply (inv_id_key _ _ Hinv _ _ Ha).
Qed.

Lemma RemoveAtom_frame_witness :
  exists s', RemoveAtom 1 store_XX = (true, s') /\
    atoms_by_id_ s' = delete 1 (atoms_by_id_ store_XX) /\
    atoms_by_name_ s' = delete (name node_X) (atoms_by_name_ store_XX) /\
    (forall j, j <> 1 -> GetAtom s' j = GetAtom store_XX j) /\
    (forall n, n <> name node_X ->
               GetAtomByName s' n = GetAtomByName store_XX n) /\
    GetAtomByName s' (name node_X) = None /\
    (forall t, GetAtomsByType s' t
               = filter (fun b => id b <> 1) (GetAtomsByType store_XX t)) /\
    (forall t, t <> type node_X ->
               GetAtomsByType s' t = GetAtomsByType store_XX t) /\
    node_X ∉ GetAtomsByType s' (type node_X).
Proof.
  apply (RemoveAtom_frame 3 store_XX 1 node_X).
  - apply store_XX_inv.
  - reflexivity.
Defined.

(** In that store the frame is not empty: the link stays in the by-id
    index and in its bucket when the node is removed. *)
Example RemoveAtom_frame_store_XX :
  Size store_XX = 2%nat /\
  GetAtom (snd (RemoveAtom 1 store_XX)) 2 = Some link_X /\
  GetAtomsByType (snd (RemoveAtom 1 store_XX)) INHERITANCE_LINK = [link_X] /\
  GetAtomsByType (snd (RemoveAtom 1 store_XX)) CONCEPT_NODE = [].
Proof. repeat split; reflexivity. Qed.

(** Claim C1, the counterexample.  In the store of the scenario the
    by-name entry for "X" refers to the link (id 2), not to the node (id 1)
    that was added first under that name.  [RemoveAtom(1)] erases that
    entry all the same: afterwards the link is still found by id, and no
    longer by name. *)
Lemma RemoveAtom_erases_other_holder :
  store_inv 3 store_XX /\
  GetAtom store_XX 1 = Some node_X /\
  GetAtomByName store_XX (name node_X) = Some link_X /\
  id link_X <> id node_X /\
  fst (RemoveAtom 1 store_XX) = true /\
  GetAtom (snd (RemoveAtom 1 store_XX)) 2 = Some link_X /\
  GetAtomByName (snd (RemoveAtom 1 store_XX)) (name node_X) = None /\
  GetAtomByName (snd (RemoveAtom 1 store_XX)) (name node_X)
    <> GetAtomByName store_XX (name node_X).
Proof.
  split; [apply store_XX_inv|].
  repeat split; try reflexivity; vm_compute; discriminate.
Qed.

(** Claim C8.  When an atom is stored under id [i], [RemoveAtom(i)]
    returns true; afterwards [GetAtom(i)] and [GetAtomByName] of the
    removed atom's name both miss, and [Size()] is one less. *)
Theorem RemoveAtom_present (s : AtomSpace) (i : Z) (a : Atom) :
  GetAtom s i = Some a ->
  exists s', RemoveAtom i s = (true, s') /\
    GetAtom s' i = None /\
    GetAtomByName s' (name a) = None /\
    Size s = S (Size s').
Proof.
  intros Ha. unfold GetAtom in Ha. eexists. unfold RemoveAtom. rewrite Ha.
  split; [reflexivity|].
  unfold GetAtom, GetAtomByName, Size. simpl.
  split; [apply lookup_delete_eq|]. split; [apply lookup_delete_eq|].
  rewrite map_size_delete, Ha.
  assert (size (atoms_by_id_ s) <> 0%nat); [|simpl; lia].
  intros Hz. apply map_size_empty_iff in Hz. rewrite Hz in Ha.
  by rewrite lookup_empty in Ha.
Qed.

Lemma RemoveAtom_present_witness :
  exists s', RemoveAtom 2 store_XX = (true, s') /\
    GetAtom s' 2 = None /\
    GetAtomByName s' (name link_X) = None /\
    Size store_XX = S (Size s').
Proof. apply (RemoveAtom_present store_XX 2 link_X). reflexivity. Defined.

(** *** AddLink and AddNode *)

(** An atom already in a consistent store is still found by id and in the
    bucket of its type after a new atom went in under a fresh id. *)
Lemma holder_survives (next : Z) (s : AtomSpace) (new prev : Atom) (n : string) :
  store_inv next s -> id new = next ->
  GetAtomByName s n = Some prev ->
  let s' := mkAtomSpace (tenant_id_ s)
              (<[id new := new]> (atoms_by_id_ s))
              (<[n := new]> (atoms_by_name_ s))
              (multimap_insert (type new) new (atoms_by_type_ s)) in
  id prev <> id new /\
  GetAtom s' (id prev) = Some prev /\
  prev ∈ GetAtomsByType s' (type prev).
Proof.
  intros Hinv Hid Hprev s'. unfold GetAtomByName in Hprev.
  apply (inv_name _ _ Hinv) in Hprev as [_ Hprev].
  assert (Hne : id prev <> id new).
  { apply (inv_id_old _ _ Hinv) in Hprev. lia. }
  split; [done|]. split.
  - unfold GetAtom. simpl. by rewrite lookup_insert_ne.
  - apply elem_of_GetAtomsByType. simpl. apply elem_of_multimap_insert.
    right. by apply (inv_id_type _ _ Hinv (id prev)).
Qed.



(** Claim C6.  When the by-name entry for a name holds a node, [AddNode]
    with that name returns that node, whatever type is asked for, and
    leaves the store and the id counter as they were; so does every further
    call, and [Size()] never changes. *)
Theorem AddNode_dedupe (s : AtomSpace) (n : string) (found : Atom) :
  GetAtomByName s n = Some found ->
  IsNode found = true ->
  (forall t next, AddNode t n next s = (found, next, s)) /\
  (forall types next,
     AddNode_each types n next s
     = (repeat found (length types), next, s)) /\
  (forall t next, Size (snd (AddNode t n next s)) = Size s).
Proof.
  intros Hn Hnode. unfold GetAtomByName in Hn.
  assert (Hone : forall t next, AddNode t n next s = (found, next, s)).
  { intros t next. unfold AddNode, find_node. by rewrite Hn, Hnode. }
  split; [exact Hone|]. split.
  - induction types as [|t ts IH]; intros next; simpl; [done|].
    by rewrite Hone, IH.
  - intros t next. by rewrite Hone.
Qed.

Lemma AddNode_dedupe_witness :
  (forall t next, AddNode t "X" next store_X = (node_X, next, store_X)) /\
  (forall types next,
     AddNode_each types "X" next store_X
     = (repeat node_X (length types), next, store_X)) /\
  (forall t next, Size (snd (AddNode t "X" next store_X)) = Size store_X).
Proof. apply (AddNode_dedupe store_X "X" node_X); reflexivity. Defined.



End AtomsProofs.

(** * Properties of the id counter *)

Module ProcessProofs.
Import Atoms Process.

Lemma GetOrCreateAtomSpace_next_id (tenant : string) (p : Process) :
  next_id_ (snd (GetOrCreateAtomSpace tenant p)) = next_id_ p.
Proof.
  unfold GetOrCreateAtomSpace. by destruct (atomspaces_ p !! tenant).
Qed.

(** A call hands out either no id, or the id the counter holds, and then
    the counter moves up by one. *)
Lemma step_next_id (c : Call) (p : Process) :
  counter_ok (next_id_ p) ->
  (fst (step c p) = None /\ next_id_ (snd (step c p)) = next_id_ p) \/
  (fst (step c p) = Some (next_id_ p) /\
   next_id_ (snd (step c p)) = next_id_ p + 1).
Proof.
  intros Hok. pose proof (GetOrCreateAtomSpace_next_id) as Hget.
  destruct c as [tenant t n|tenant t n out|tenant i|tenant|tenant]; simpl.
  - specialize (Hget tenant p).
    destruct (GetOrCreateAtomSpace tenant p) as [s p1]. simpl in Hget.
    unfold AddNode. destruct (find_node n s); simpl.
    + left. by rewrite Hget.
    + right. rewrite Hget. by rewrite AtomsProofs.incr_uint64_no_wrap.
  - specialize (Hget tenant p).
    destruct (GetOrCreateAtomSpace tenant p) as [s p1]. simpl in Hget.
    right. simpl. rewrite Hget. by rewrite AtomsProofs.incr_uint64_no_wrap.
  - specialize (Hget tenant p).
    destruct (GetOrCreateAtomSpace tenant p) as [s p1]. simpl in *.
    by left.
  - specialize (Hget tenant p).
    destruct (GetOrCreateAtomSpace tenant p) as [s p1]. simpl in *.
    by left.
  - by left.
Qed.

Lemma run_ids (cs : list Call) :
  forall p, 0 <= next_id_ p ->
    next_id_ p + Z.of_nat (length cs) < UINT64_MOD ->
    next_id_ p <= next_id_ (snd (run cs p))
      <= next_id_ p + Z.of_nat (length cs) /\
    StronglySorted Z.lt (fst (run cs p)) /\
    Forall (fun i => next_id_ p <= i < next_id_ (snd (run cs p)))
      (fst (run cs p)).
Proof.
  induction cs as [|c cs IH]; intros p H0 Hroom; simpl.
  - split; [lia|]. split; constructor.
  - assert (Hok : counter_ok (next_id_ p)).
    { split; [done|]. simpl in Hroom. lia. }
    pose proof (step_next_id c p Hok) as Hstep.
    destruct (step c p) as [o p1]. simpl in Hstep.
    specialize (IH p1).
    destruct (run cs p1) as [ids p2]. simpl in IH |- *.
    simpl in Hroom.
    destruct Hstep as [[-> Hn]|[-> Hn]]; rewrite Hn in IH;
      destruct IH as (Hle & Hsorted & Hall); try lia; simpl.
    + split; [lia|]. split; [done|].
      eapply Forall_impl; [exact Hall|]. simpl. intros; lia.
    + split; [lia|]. split.
      * constructor; [done|].
        eapply Forall_impl; [exact Hall|]. simpl. intros; lia.
      * constructor; [lia|].
        eapply Forall_impl; [exact Hall|]. simpl. intros; lia.
Qed.

(** Calls made one after the other.  Over any sequence of [AddNode],
    [AddLink], [RemoveAtom], [Clear] and store removals on the stores of
    any tenants in which no two calls overlap, as long as the 64-bit
    counter does not wrap around, each atom constructed gets an id strictly
    greater than every id handed out before it (so no two atoms ever share
    an id, removed or not), and none below the value the counter had at
    the start. *)
Theorem ids_strictly_increase (cs : list Call) (p : Process) :
  0 <= next_id_ p ->
  next_id_ p + Z.of_nat (length cs) < UINT64_MOD ->
  exists ids p',
    run cs p = (ids, p') /\
    StronglySorted Z.lt ids /\
    NoDup ids /\
    Forall (fun i => next_id_ p <= i < next_id_ p') ids.
Proof.
  intros H0 Hroom. destruct (run_ids cs p H0 Hroom) as (_ & Hs & Hall).
  exists (fst (run cs p)), (snd (run cs p)).
  split; [by destruct (run cs p)|]. split; [done|]. split; [|done].
  clear Hall. induction Hs as [|i ids Hs IH Hlt]; constructor; [|done].
  intros Hin. eapply Forall_forall in Hlt; [|exact Hin]. lia.
Qed.

(** *** Every store a run can reach has consistent indices *)

Lemma stores_inv_initial : stores_inv initial.
Proof. intros tenant s Hs. simpl in Hs. by rewrite lookup_empty in Hs. Qed.

Lemma stores_inv_put (tenant : string) (s : AtomSpace) (next : Z)
    (p : Process) :
  stores_inv p -> next_id_ p <= next -> store_inv next s ->
  stores_inv (put tenant s next p).
Proof.
  intros Hp Hle Hs tenant' s'. unfold put. simpl.
  rewrite lookup_insert. case_decide; [by intros [= <-]|].
  intros Hs'. apply (AtomsProofs.store_inv_mono (next_id_ p)); [done|].
  by apply (Hp tenant').
Qed.

Lemma stores_inv_GetOrCreateAtomSpace (tenant : string) (p : Process) :
  stores_inv p ->
  stores_inv (snd (GetOrCreateAtomSpace tenant p)) /\
  store_inv (next_id_ p) (fst (GetOrCreateAtomSpace tenant p)).
Proof.
  intros Hp. unfold GetOrCreateAtomSpace.
  destruct (atomspaces_ p !! tenant) as [s|] eqn:Hs; simpl.
  - split; [done|]. by apply (Hp tenant).
  - split; [|apply AtomsProofs.store_inv_new].
    intros tenant' s'. simpl. rewrite lookup_insert.
    case_decide; [intros [= <-]; apply AtomsProofs.store_inv_new|].
    apply (Hp tenant').
Qed.

Lemma stores_inv_step (c : Call) (p : Process) :
  counter_ok (next_id_ p) -> stores_inv p -> stores_inv (snd (step c p)).
Proof.
  intros Hok Hp.
  destruct c as [tenant t n|tenant t n out|tenant i|tenant|tenant]; simpl.
  - destruct (stores_inv_GetOrCreateAtomSpace tenant p Hp) as [Hp1 Hs].
    pose proof (GetOrCreateAtomSpace_next_id tenant p) as Hn.
    destruct (GetOrCreateAtomSpace tenant p) as [s p1]. simpl in *.
    rewrite Hn.
    pose proof (AtomsProofs.AddNode_inv (next_id_ p) s t n Hs Hok) as Hadd.
    assert (Hle : next_id_ p <= snd (fst (AddNode t n (next_id_ p) s))).
    { unfold AddNode. destruct (find_node n s); simpl; [lia|].
      rewrite AtomsProofs.incr_uint64_no_wrap by done. lia. }
    destruct (AddNode t n (next_id_ p) s) as [[a next'] s']. simpl in *.
    apply stores_inv_put; [done|lia|done].
  - destruct (stores_inv_GetOrCreateAtomSpace tenant p Hp) as [Hp1 Hs].
    pose proof (GetOrCreateAtomSpace_next_id tenant p) as Hn.
    destruct (GetOrCreateAtomSpace tenant p) as [s p1]. simpl in *.
    rewrite Hn.
    pose proof (AtomsProofs.AddLink_inv (next_id_ p) s t n out Hs Hok)
      as Hadd.
    simpl in Hadd. rewrite AtomsProofs.incr_uint64_no_wrap in * by done.
    apply stores_inv_put; [done|lia|done].
  - destruct (stores_inv_GetOrCreateAtomSpace tenant p Hp) as [Hp1 Hs].
    pose proof (GetOrCreateAtomSpace_next_id tenant p) as Hn.
    destruct (GetOrCreateAtomSpace tenant p) as [s p1]. simpl in *.
    apply stores_inv_put; [done|lia|].
    rewrite Hn. by apply AtomsProofs.RemoveAtom_inv.
  - destruct (stores_inv_GetOrCreateAtomSpace tenant p Hp) as [Hp1 Hs].
    pose proof (GetOrCreateAtomSpace_next_id tenant p) as Hn.
    destruct (GetOrCreateAtomSpace tenant p) as [s p1]. simpl in *.
    apply stores_inv_put; [done|lia|]. apply AtomsProofs.Clear_inv.
  - intros tenant' s'. simpl. rewrite lookup_delete.
    case_decide; [done|]. apply (Hp tenant').
Qed.

Lemma stores_inv_run (cs : list Call) :
  forall p, 0 <= next_id_ p ->
    next_id_ p + Z.of_nat (length cs) < UINT64_MOD ->
    stores_inv p -> stores_inv (snd (run cs p)).
Proof.
  induction cs as [|c cs IH]; intros p H0 Hroom Hp; [done|].
  cbn [run]. cbn [length] in Hroom.
  assert (Hok : counter_ok (next_id_ p)) by (split; [done|lia]).
  pose proof (stores_inv_step c p Hok Hp) as Hp1.
  pose proof (step_next_id c p Hok) as Hn.
  destruct (step c p) as [o p1]. simpl in Hp1, Hn.
  specialize (IH p1).
  destruct (run cs p1) as [ids p2]. simpl in *.
  apply IH; [lia|lia|done].
Qed.

(** Claim C7, on the code.  Two threads call [AddNode] at the same time,
    one on the store of "tenant1" and one on the store of "tenant2", in a
    process that has constructed no atom yet, and the second reads
    [next_id_] before the first has written it back.  Both nodes get the id
    1: each store then holds an atom under that id, and the counter ends
    at 2, as if one atom had been constructed. *)
Lemma overlapping_AddNode_share_id :
  exists p s1 s2,
    step_overlapping (CallAddNode "tenant1" CONCEPT_NODE "X")
      (CallAddNode "tenant2" CONCEPT_NODE "Y") initial
    = (Some 1, Some 1, p) /\
    GetAtomSpace "tenant1" p = Some s1 /\
    GetAtomSpace "tenant2" p = Some s2 /\
    GetAtom s1 1 = Some (Node CONCEPT_NODE "X" 1) /\
    GetAtom s2 1 = Some (Node CONCEPT_NODE "Y" 1) /\
    next_id_ p = 2.
Proof. eexists _, _, _. repeat split; reflexivity. Qed.

(** The same happens from any state and for any two calls for two
    different tenants that construct an atom: overlapping, they hand out
    one id twice. *)
Lemma step_overlapping_same_id (c1 c2 : Call) (p : Process) (i j : Z) :
  call_tenant c1 <> call_tenant c2 ->
  counter_ok (next_id_ p) ->
  fst (fst (step_overlapping c1 c2 p)) = Some i ->
  snd (fst (step_overlapping c1 c2 p)) = Some j ->
  i = j /\ i = next_id_ p.
Proof.
  intros _ Hok. unfold step_overlapping.
  pose proof (step_next_id c1 p Hok) as H1.
  destruct (step c1 p) as [o1 p1]. simpl in H1.
  pose proof (step_next_id c2 (with_next_id (next_id_ p) p1) Hok) as H2.
  destruct (step c2 (with_next_id (next_id_ p) p1)) as [o2 p2].
  simpl in H2 |- *. intros Hi Hj. subst o1 o2.
  destruct H1 as [[Hn _]|[Hs _]]; [discriminate|]. injection Hs as ->.
  destruct H2 as [[Hn _]|[Hs _]]; [discriminate|]. injection Hs as ->.
  done.
Qed.

Lemma ids_strictly_increase_witness :
  exists ids p',
    run sample_calls initial = (ids, p') /\
    StronglySorted Z.lt ids /\
    NoDup ids /\
    Forall (fun i => next_id_ initial <= i < next_id_ p') ids.
Proof.
  apply (ids_strictly_increase sample_calls initial).
  - vm_compute. discriminate.
  - vm_compute. reflexivity.
Defined.

Example sample_calls_ids : fst (run sample_calls initial) = [1; 2; 3; 4].
Proof. vm_compute. reflexivity. Qed.

End ProcessProofs.

(** * Properties of the orchestrator *)

Module OrchestratorProofs.
Import Agents Orchestrator.

(** *** The registry *)

Lemma compare_refl (k : string) : String.compare k k = Eq.
Proof.
  pose proof (String.compare_antisym k k) as H.
  destruct (String.compare k k); simpl in H; congruence.
Qed.

Lemma find_insert_eq (k : string) (v : Agent) (m : registry) :
  find k (insert k v m) = Some v.
Proof.
  induction m as [|e m IH]; simpl.
  - by rewrite String.eqb_refl.
  - destruct (String.compare k (fst e)) eqn:Hc; simpl.
    + by rewrite String.eqb_refl.
    + by rewrite String.eqb_refl.
    + destruct (String.eqb k (fst e)) eqn:He; [|done].
      apply String.eqb_eq in He. subst k. rewrite compare_refl in Hc.
      discriminate.
Qed.

Lemma find_insert_ne (k k' : string) (v : Agent) (m : registry) :
  k <> k' -> find k' (insert k v m) = find k' m.
Proof.
  intros Hne. apply not_eq_sym, String.eqb_neq in Hne.
  induction m as [|e m IH]; simpl.
  - by rewrite Hne.
  - destruct (String.compare k (fst e)) eqn:Hc; simpl.
    + apply String.compare_eq_iff in Hc. subst k. by rewrite Hne.
    + by rewrite Hne.
    + by rewrite IH.
Qed.

Lemma find_mutate_ne (k k' : string) (v : Agent) (m : registry) :
  k <> k' -> find k' (mutate k v m) = find k' m.
Proof.
  intros Hne. induction m as [|e m IH]; simpl; [done|].
  destruct (String.eqb k (fst e)) eqn:He; simpl; [|by rewrite IH].
  apply String.eqb_eq in He. subst k.
  apply not_eq_sym, String.eqb_neq in Hne. by rewrite Hne.
Qed.

Lemma find_mutate_eq (k : string) (v a : Agent) (m : registry) :
  find k m = Some a -> find k (mutate k v m) = Some v.
Proof.
  induction m as [|e m IH]; simpl; [done|].
  destruct (String.eqb k (fst e)) eqn:He; simpl; rewrite He; [done|].
  exact IH.
Qed.

Lemma find_erase_ne (k k' : string) (m : registry) :
  k <> k' -> find k' (erase k m) = find k' m.
Proof.
  intros Hne. induction m as [|e m IH]; simpl; [done|].
  destruct (String.eqb k (fst e)) eqn:He; simpl; [|by rewrite IH].
  apply String.eqb_eq in He. subst k.
  apply not_eq_sym, String.eqb_neq in Hne. by rewrite Hne.
Qed.

Lemma find_is_Some_In (k : string) (m : registry) :
  is_Some (find k m) <-> In k (map fst m).
Proof.
  induction m as [|e m IH]; simpl.
  - split; [by intros [? ?]|done].
  - destruct (String.eqb k (fst e)) eqn:He.
    + apply String.eqb_eq in He. split; [by left|by eexists].
    + apply String.eqb_neq in He. rewrite IH. split; [by right|].
      intros [Heq|Hin]; [by subst|done].
Qed.

Lemma insert_keys (k : string) (v : Agent) (m : registry) :
  find k m = None -> map fst (insert k v m) ≡ₚ k :: map fst m.
Proof.
  induction m as [|e m IH]; simpl; [done|].
  destruct (String.eqb k (fst e)) eqn:He; [done|]. intros Hnone.
  destruct (String.compare k (fst e)) eqn:Hc; simpl.
  - apply String.compare_eq_iff in Hc. apply String.eqb_neq in He. done.
  - done.
  - rewrite (IH Hnone). apply Permutation_swap.
Qed.

Lemma insert_elem (k : string) (v : Agent) (m : registry) e :
  In e (insert k v m) -> (k, v) = e \/ In e m.
Proof.
  induction m as [|e' m IH]; simpl; [tauto|].
  destruct (String.compare k (fst e')); simpl; tauto.
Qed.

Lemma mutate_keys (k : string) (v : Agent) (m : registry) :
  map fst (mutate k v m) = map fst m.
Proof.
  induction m as [|e m IH]; simpl; [done|].
  destruct (String.eqb k (fst e)); simpl; by rewrite ?IH.
Qed.

Lemma registry_ok_insert (k : string) (v : Agent) (m : registry) :
  registry_ok m -> find k m = None -> agent_id_ v = k ->
  registry_ok (insert k v m).
Proof.
  intros [Hnd Hall] Hnone Hid. split.
  - rewrite (insert_keys k v m Hnone). apply NoDup_cons. split; [|done].
    rewrite list_elem_of_In, <- find_is_Some_In, Hnone.
    by intros [? ?].
  - apply Forall_forall. intros e He. rewrite list_elem_of_In in He.
    apply insert_elem in He as [<-|He]; [done|].
    rewrite Forall_forall in Hall. apply Hall. by rewrite list_elem_of_In.
Qed.

Lemma registry_ok_mutate (k : string) (v : Agent) (m : registry) :
  registry_ok m -> agent_id_ v = k -> registry_ok (mutate k v m).
Proof.
  intros [Hnd Hall] Hid. split; [by rewrite mutate_keys|].
  clear Hnd. induction Hall as [|e m He Hall IH]; simpl; [constructor|].
  destruct (String.eqb k (fst e)) eqn:Hk; constructor; try done.
  simpl. apply String.eqb_eq in Hk. congruence.
Qed.

Lemma registry_ok_erase (k : string) (m : registry) :
  registry_ok m -> registry_ok (erase k m).
Proof.
  intros [Hnd Hall]. induction m as [|e m IH]; simpl; [done|].
  simpl in Hnd. apply NoDup_cons in Hnd as [Hnotin Hnd].
  apply Forall_cons in Hall as [He Hall].
  destruct (String.eqb k (fst e)) eqn:Hk; [done|].
  destruct (IH Hnd Hall) as [Hnd' Hall']. split.
  - simpl. apply NoDup_cons. split; [|done]. intros Hin. apply Hnotin.
    rewrite list_elem_of_In in Hin |- *.
    rewrite <- find_is_Some_In in Hin |- *.
    destruct (decide (k = fst e)) as [->|Hne].
    + by rewrite String.eqb_refl in Hk.
    + by rewrite find_erase_ne in Hin.
  - by constructor.
Qed.

Lemma find_agent_id (k : string) (a : Agent) (m : registry) :
  registry_ok m -> find k m = Some a -> agent_id_ a = k.
Proof.
  intros [_ Hall]. induction Hall as [|e m He Hall IH]; simpl; [done|].
  destruct (String.eqb k (fst e)) eqn:Hk; [|done].
  apply String.eqb_eq in Hk. intros [= <-]. congruence.
Qed.

Lemma invoke_agent_id (m : Method) (a : Agent) :
  agent_id_ (fst (invoke m a)) = agent_id_ a.
Proof. done. Qed.

(** *** The registry invariant is kept by every call and by the worker *)

Lemma RegisterAgent_inv (agent : option Agent) (o : AgentOrchestrator) :
  registry_inv o -> registry_inv (snd (RegisterAgent agent o)).
Proof.
  intros Hinv. unfold RegisterAgent. destruct agent as [a|]; [|done].
  destruct (find (agent_id_ a) (agents_ o)) eqn:Hf; [done|].
  unfold registry_inv. simpl. by apply registry_ok_insert.
Qed.

Lemma UnregisterAgent_inv (agent_id : string) (o : AgentOrchestrator) :
  registry_inv o -> registry_inv (snd (UnregisterAgent agent_id o)).
Proof.
  intros Hinv. unfold UnregisterAgent.
  destruct (find agent_id (agents_ o)) as [a|] eqn:Hf; [|done].
  unfold invoke. simpl.
  destruct (r_outcome _); unfold registry_inv; simpl.
  - by apply registry_ok_erase.
  - apply registry_ok_mutate; [done|]. simpl.
    by apply (find_agent_id _ _ (agents_ o)).
Qed.

Lemma deliver_inv (messages : list AgentMessage) :
  forall o, registry_inv o -> registry_inv (snd (deliver messages o)).
Proof.
  induction messages as [|message rest IH]; intros o Hinv; simpl; [done|].
  unfold GetAgent.
  destruct (find (to_agent_id message) (agents_ o)) as [a|] eqn:Hf;
    [|by apply IH].
  unfold invoke. simpl.
  match goal with
  | |- context [with_agents ?m o] =>
      assert (Hm : registry_ok m)
  end.
  { apply registry_ok_mutate; [done|]. simpl.
    by apply (find_agent_id _ _ (agents_ o)). }
  destruct (r_outcome _); [by apply IH|done].
Qed.

Lemma dispatch_inv (agent_id : string) (o : AgentOrchestrator) :
  registry_inv o -> registry_inv (dispatch agent_id o).
Proof.
  intros Hinv. unfold dispatch.
  destruct (String.eqb agent_id ""); [done|]. unfold GetAgent.
  destruct (find agent_id (agents_ o)) as [a|] eqn:Hf; [|done].
  case_bool_decide; [|done].
  unfold invoke, registry_inv. simpl.
  apply registry_ok_mutate; [done|].
  pose proof (find_agent_id _ _ (agents_ o) Hinv Hf) as Hid.
  by destruct (r_outcome _).
Qed.

Lemma OrchestratorLoop_body_inv (o : AgentOrchestrator) :
  registry_inv o -> registry_inv (snd (OrchestratorLoop_body o)).
Proof.
  intros Hinv. unfold OrchestratorLoop_body, ProcessMessageQueue.
  pose proof (deliver_inv (message_queue_ o)
                (mkOrchestrator (running_ o) (agents_ o) []
                   (scheduled_agents_ o)) Hinv) as Hd.
  destruct (deliver _ _) as [[u|] o1]; simpl in *; [|done].
  unfold pop_scheduled.
  destruct (scheduled_agents_ o1); simpl; by apply dispatch_inv.
Qed.

Lemma exec_inv (e : Event) (o o' : AgentOrchestrator) :
  registry_inv o -> exec e o = Some o' -> registry_inv o'.
Proof.
  intros Hinv. destruct e; simpl; try (intros [= <-]).
  - by apply RegisterAgent_inv.
  - by apply UnregisterAgent_inv.
  - unfold Start. by destruct (running_ o).
  - unfold Stop. by destruct (running_ o).
  - done.
  - done.
  - done.
  - destruct (running_ o); [|by intros [= <-]].
    pose proof (OrchestratorLoop_body_inv o Hinv) as Hb.
    destruct (OrchestratorLoop_body o) as [[u|] o1]; [|done].
    by intros [= <-].
Qed.

Lemma run_inv (es : list Event) :
  forall o o', registry_inv o -> run es o = Some o' -> registry_inv o'.
Proof.
  induction es as [|e es IH]; intros o o' Hinv; simpl.
  - by intros [= <-].
  - destruct (exec e o) as [o1|] eqn:He; [|done].
    apply IH. by apply (exec_inv e o).
Qed.

Lemma new_AgentOrchestrator_inv : registry_inv new_AgentOrchestrator.
Proof. split; constructor. Qed.

Lemma register_all_inv (agents : list Agent) :
  forall o, registry_inv o -> registry_inv (snd (register_all agents o)).
Proof.
  induction agents as [|a rest IH]; intros o Hinv; cbn [register_all];
    [done|].
  pose proof (RegisterAgent_inv (Some a) o Hinv) as H1.
  destruct (RegisterAgent (Some a) o) as [c o1]. simpl in H1.
  specialize (IH o1 H1). by destruct (register_all rest o1).
Qed.

Lemma three_agents_inv : registry_inv three_agents.
Proof. apply register_all_inv, new_AgentOrchestrator_inv. Qed.

(** *** One agent through the worker's steps *)

Lemma execute_count_invoke (m : Method) (a : Agent) :
  execute_count (fst (invoke m a))
  = (execute_count a + (if is_Execute m then 1 else 0))%nat.
Proof.
  unfold execute_count. simpl. rewrite List.filter_app, length_app. simpl.
  by destruct (is_Execute m).
Qed.

(** The dispatch of a registered, [IDLE] agent with a non-empty id:
    [Execute] is invoked once, and the agent ends [IDLE] when it returned
    and [FAILED] when it threw; no exception leaves [dispatch]. *)
Lemma dispatch_idle (i : string) (a : Agent) (o : AgentOrchestrator) :
  GetAgent i o = Some a -> state_ a = IDLE -> i <> "" ->
  exists a', GetAgent i (dispatch i o) = Some a' /\
    vtable_ a' = vtable_ a /\
    history_ a' = history_ a ++ [MExecute] /\
    execute_count a' = S (execute_count a) /\
    state_ a' =
      match r_outcome (vtable_ a (history_ a) RUNNING MExecute) with
      | Returns => IDLE
      | Throws => FAILED
      end.
Proof.
  intros Ha Hidle Hne. unfold dispatch.
  apply String.eqb_neq in Hne. rewrite Hne, Ha.
  rewrite bool_decide_eq_true_2 by done.
  unfold invoke. simpl. unfold GetAgent in *. simpl.
  eexists. split; [by apply (find_mutate_eq i _ a)|].
  destruct (r_outcome _); simpl; repeat split; try done;
    unfold execute_count; simpl;
    rewrite List.filter_app, length_app; simpl; lia.
Qed.

Section OneAgent.

Variable i : string.
Variable a : Agent.
Hypothesis Hthrows : Execute_always_throws a.
Hypothesis Hkeeps : OnMessage_keeps_state a.

Local Abbreviation tracked := (dispatched_at_most_once i a).

Lemma tracked_agents (o o' : AgentOrchestrator) :
  find i (agents_ o') = find i (agents_ o) -> tracked o -> tracked o'.
Proof.
  intros Heq (a' & Ha & H). exists a'. unfold GetAgent in *.
  by rewrite Heq.
Qed.

Lemma tracked_deliver (messages : list AgentMessage) :
  forall o, tracked o -> tracked (snd (deliver messages o)).
Proof.
  induction messages as [|message rest IH]; intros o Ht; simpl; [done|].
  unfold GetAgent.
  destruct (find (to_agent_id message) (agents_ o)) as [b|] eqn:Hf;
    [|by apply IH].
  set (r := vtable_ b (history_ b) (state_ b) (MOnMessage message)).
  assert (Hnext : tracked
            (push_messages (sent b (r_sends r))
               (with_agents
                  (mutate (to_agent_id message)
                     (fst (invoke (MOnMessage message) b)) (agents_ o)) o))).
  { destruct (decide (to_agent_id message = i)) as [Hi|Hi].
    - destruct Ht as (a' & Ha & Hv & Hst). unfold GetAgent in Ha.
      rewrite Hi in Hf. rewrite Hf in Ha. injection Ha as ->.
      eexists. unfold GetAgent. simpl. rewrite Hi.
      split; [by apply (find_mutate_eq i _ a')|]. simpl.
      split; [done|].
      rewrite Hv, Hkeeps.
      unfold execute_count in *. simpl.
      rewrite List.filter_app, length_app. simpl.
      rewrite Nat.add_0_r. done.
    - apply (tracked_agents o); [|done]. simpl.
      by apply find_mutate_ne. }
  unfold invoke in *. simpl in *. fold r.
  destruct (r_outcome r); [by apply IH|done].
Qed.

Lemma tracked_dispatch (k : string) (o : AgentOrchestrator) :
  tracked o -> tracked (dispatch k o).
Proof.
  intros Ht. destruct (decide (k = i)) as [->|Hk].
  - destruct Ht as (a' & Ha & Hv & Hst).
    destruct (String.eqb i "") eqn:Hempty.
    { unfold dispatch. rewrite Hempty. by exists a'. }
    apply String.eqb_neq in Hempty.
    destruct Hst as [[Hidle Hn]|[Hfailed Hn]].
    + destruct (dispatch_idle i a' o Ha Hidle Hempty)
        as (a'' & Ha'' & Hv'' & _ & Hn'' & Hst'').
      exists a''. split; [done|]. split; [congruence|]. right.
      rewrite Hv, Hthrows in Hst''. split; [done|lia].
    + exists a'. unfold dispatch. apply String.eqb_neq in Hempty.
      rewrite Hempty, Ha.
      rewrite bool_decide_eq_false_2 by (rewrite Hfailed; done).
      split; [done|]. split; [done|]. by right.
  - unfold dispatch. destruct (String.eqb k ""); [done|].
    destruct (GetAgent k o) as [b|]; [|done].
    case_bool_decide; [|done]. unfold invoke. simpl.
    apply (tracked_agents o); [|done]. simpl. by apply find_mutate_ne.
Qed.

Lemma tracked_body (o : AgentOrchestrator) :
  tracked o -> tracked (snd (OrchestratorLoop_body o)).
Proof.
  intros Ht. unfold OrchestratorLoop_body, ProcessMessageQueue.
  pose proof (tracked_deliver (message_queue_ o)
                (mkOrchestrator (running_ o) (agents_ o) []
                   (scheduled_agents_ o)) Ht) as Hd.
  destruct (deliver _ _) as [[u|] o1]; simpl in *; [|done].
  unfold pop_scheduled.
  destruct (scheduled_agents_ o1); simpl; by apply tracked_dispatch.
Qed.

Lemma tracked_exec (e : Event) (o o' : AgentOrchestrator) :
  e <> EvUnregisterAgent i -> tracked o -> exec e o = Some o' -> tracked o'.
Proof.
  intros He Ht. destruct e as [agent|k| | |message|f t p now|k|]; simpl;
    try (intros [= <-]).
  - unfold RegisterAgent. destruct agent as [b|]; [|done].
    destruct (find (agent_id_ b) (agents_ o)) eqn:Hf; [done|].
    unfold invoke. simpl. apply (tracked_agents o); [|done]. simpl.
    apply find_insert_ne. intros Heq.
    destruct Ht as (a' & Ha & _). unfold GetAgent in Ha. congruence.
  - assert (Hk : k <> i) by congruence.
    unfold UnregisterAgent. destruct (find k (agents_ o)) eqn:Hf; [|done].
    unfold invoke. simpl.
    destruct (r_outcome _); simpl; (apply (tracked_agents o); [|done]);
      simpl; [by apply find_erase_ne|by apply find_mutate_ne].
  - unfold Start. by destruct (running_ o).
  - unfold Stop. by destruct (running_ o).
  - done.
  - done.
  - done.
  - destruct (running_ o); [|by intros [= <-]].
    pose proof (tracked_body o Ht) as Hb.
    destruct (OrchestratorLoop_body o) as [[u|] o1]; [|done].
    by intros [= <-].
Qed.

Lemma tracked_run (es : list Event) :
  forall o o',
    Forall (fun e => e <> EvUnregisterAgent i) es ->
    tracked o -> run es o = Some o' -> tracked o'.
Proof.
  induction es as [|e es IH]; intros o o' Hes Ht; simpl.
  - by intros [= <-].
  - apply Forall_cons in Hes as [He Hes].
    destruct (exec e o) as [o1|] eqn:Hexec; [|done].
    apply IH; [done|]. by apply (tracked_exec e o).
Qed.

End OneAgent.




Example faulty_events_run :
  exists o a',
    run faulty_events faulty_registered = Some o /\
    GetAgent "faulty" o = Some a' /\
    state_ a' = FAILED /\ execute_count a' = 1%nat /\
    scheduled_agents_ o = [].
Proof. eexists _, _. repeat split; reflexivity. Qed.

(** *** RegisterAgent *)

Lemma successes_all_false (n : nat) :
  successes (repeat (Return false) n) = 0%nat.
Proof. induction n as [|n IH]; [done|]. exact IH. Qed.

(** Once an id is registered, every further attempt with it returns false
    and changes nothing. *)
Lemma register_all_duplicates (i : string) (agents : list Agent)
    (o : AgentOrchestrator) :
  is_Some (GetAgent i o) ->
  Forall (fun b => agent_id_ b = i) agents ->
  register_all agents o = (repeat (Return false) (length agents), o).
Proof.
  intros [x Hx] Hall. unfold GetAgent in Hx.
  induction Hall as [|b rest Hb Hall IH]; [done|].
  cbn [register_all]. unfold RegisterAgent. rewrite Hb, Hx.
  by rewrite IH.
Qed.

Lemma RegisterAgent_fresh (a : Agent) (o : AgentOrchestrator) :
  GetAgent (agent_id_ a) o = None ->
  exists o' a',
    RegisterAgent (Some a) o
    = (completion_of
         (r_outcome (vtable_ a (history_ a) (state_ a) MInitialize))
         (r_result (vtable_ a (history_ a) (state_ a) MInitialize)), o') /\
    GetAgent (agent_id_ a) o' = Some a' /\
    agent_id_ a' = agent_id_ a /\
    orchestrator_ a' = true /\
    vtable_ a' = vtable_ a /\
    history_ a' = history_ a ++ [MInitialize] /\
    state_ a' =
      match r_state (vtable_ a (history_ a) (state_ a) MInitialize) with
      | Some st => st
      | None => state_ a
      end /\
    message_queue_ o' =
      message_queue_ o ++
      sent (set_orchestrator true a)
        (r_sends (vtable_ a (history_ a) (state_ a) MInitialize)) /\
    scheduled_agents_ o' = scheduled_agents_ o /\
    (forall k, k <> agent_id_ a -> GetAgent k o' = GetAgent k o).
Proof.
  intros Hfree. unfold GetAgent in Hfree.
  eexists _, _. unfold RegisterAgent. rewrite Hfree. unfold invoke. simpl.
  split; [reflexivity|]. unfold GetAgent. simpl.
  split; [apply find_insert_eq|]. repeat split.
  intros k Hk. apply find_insert_ne. done.
Qed.

(** Claim C3, as the code has it.  [RegisterAgent] returns false for a
    null agent and for an agent whose id is already registered, and then
    changes nothing.  Otherwise it binds the agent to the orchestrator,
    stores it under its id, invokes [Initialize()] on it and ends as
    [Initialize()] does, with its result.  Of any number of attempts made
    one after the other with one id, at most one succeeds; when the id was
    free, the first attempt ends as its [Initialize()] does and all later
    ones return false, so exactly one attempt succeeds if and only if the
    first one's [Initialize()] returns true. *)
Theorem RegisterAgent_at_most_once (o : AgentOrchestrator) :
  RegisterAgent None o = (Return false, o) /\
  (forall a, is_Some (GetAgent (agent_id_ a) o) ->
             RegisterAgent (Some a) o = (Return false, o)) /\
  (forall a, GetAgent (agent_id_ a) o = None ->
     exists o' a',
       RegisterAgent (Some a) o
       = (completion_of
            (r_outcome (vtable_ a (history_ a) (state_ a) MInitialize))
            (r_result (vtable_ a (history_ a) (state_ a) MInitialize)),
          o') /\
       GetAgent (agent_id_ a) o' = Some a' /\
       orchestrator_ a' = true /\
       history_ a' = history_ a ++ [MInitialize]) /\
  (forall i agents,
     Forall (fun b => agent_id_ b = i) agents ->
     (successes (fst (register_all agents o)) <= 1)%nat) /\
  (forall a rest,
     GetAgent (agent_id_ a) o = None ->
     Forall (fun b => agent_id_ b = agent_id_ a) rest ->
     fst (register_all (a :: rest) o)
     = completion_of
         (r_outcome (vtable_ a (history_ a) (state_ a) MInitialize))
         (r_result (vtable_ a (history_ a) (state_ a) MInitialize))
       :: repeat (Return false) (length rest)).
Proof.
  assert (Hfirst : forall a rest,
    GetAgent (agent_id_ a) o = None ->
    Forall (fun b => agent_id_ b = agent_id_ a) rest ->
    fst (register_all (a :: rest) o)
    = completion_of
        (r_outcome (vtable_ a (history_ a) (state_ a) MInitialize))
        (r_result (vtable_ a (history_ a) (state_ a) MInitialize))
      :: repeat (Return false) (length rest)).
  { intros a rest Hfree Hrest.
    destruct (RegisterAgent_fresh a o Hfree) as (o' & a' & Hreg & Ha' & _).
    cbn [register_all]. rewrite Hreg.
    rewrite (register_all_duplicates (agent_id_ a) rest o'); [done| |done].
    by eexists. }
  split; [done|]. split; [|split; [|split]].
  - intros a [x Hx]. unfold GetAgent in Hx. unfold RegisterAgent.
    by rewrite Hx.
  - intros a Hfree.
    destruct (RegisterAgent_fresh a o Hfree)
      as (o' & a' & Hreg & Ha' & _ & Hb & _ & Hh & _).
    by exists o', a'.
  - intros i agents Hall.
    destruct (GetAgent i o) as [x|] eqn:Hi.
    + rewrite (register_all_duplicates i agents o); [|by eexists|done].
      simpl. rewrite successes_all_false. lia.
    + destruct Hall as [|a rest Ha Hrest]; [simpl; unfold successes; simpl; lia|].
      subst i. rewrite (Hfirst a rest Hi Hrest).
      unfold successes. simpl.
      fold (successes (repeat (Return false) (length rest))).
      destruct (succeeded _); simpl;
        fold (successes (repeat (Return false) (length rest)));
        rewrite successes_all_false; lia.
  - exact Hfirst.
Qed.

(** Claim C3, the counterexample.  Two attempts, one after the other, with
    the id "agent1" on a fresh orchestrator, by agents whose [Initialize]
    returns false: neither succeeds, and the id is registered all the
    same. *)
Lemma RegisterAgent_twice_never_succeeds :
  fst (register_all
         [RefusingAgent "agent1" "tenant1"; RefusingAgent "agent1" "tenant1"]
         new_AgentOrchestrator)
  = [Return false; Return false] /\
  successes
    (fst (register_all
            [RefusingAgent "agent1" "tenant1";
             RefusingAgent "agent1" "tenant1"]
            new_AgentOrchestrator)) <> 1%nat /\
  is_Some
    (GetAgent "agent1"
       (snd (register_all
               [RefusingAgent "agent1" "tenant1";
                RefusingAgent "agent1" "tenant1"]
               new_AgentOrchestrator))).
Proof.
  split; [reflexivity|]. split; [vm_compute; discriminate|].
  vm_compute. by eexists.
Qed.

(** Claim C9.  When a non-null agent whose id is free is registered and its
    [Initialize()] returns false, [RegisterAgent] returns false, yet the
    agent is in the registry and bound to the orchestrator: every later
    registration with its id returns false as a duplicate and changes
    nothing, and, its id being non-empty and its state [IDLE], scheduling
    it makes the next pass of the worker loop invoke its [Execute]. *)
Theorem RegisterAgent_keeps_refused_agent (o : AgentOrchestrator) (a : Agent) :
  GetAgent (agent_id_ a) o = None ->
  r_outcome (vtable_ a (history_ a) (state_ a) MInitialize) = Returns ->
  r_result (vtable_ a (history_ a) (state_ a) MInitialize) = false ->
  exists o' a',
    RegisterAgent (Some a) o = (Return false, o') /\
    GetAgent (agent_id_ a) o' = Some a' /\
    orchestrator_ a' = true /\
    (forall b, agent_id_ b = agent_id_ a ->
               RegisterAgent (Some b) o' = (Return false, o')) /\
    (state_ a' = IDLE -> agent_id_ a <> "" ->
     message_queue_ o' = [] -> scheduled_agents_ o' = [] ->
     exists o'' a'',
       OrchestratorLoop_body (ScheduleAgent (agent_id_ a) o')
       = (Return tt, o'') /\
       GetAgent (agent_id_ a) o'' = Some a'' /\
       history_ a'' = history_ a' ++ [MExecute] /\
       execute_count a'' = S (execute_count a')).
Proof.
  intros Hfree Hret Hres.
  destruct (RegisterAgent_fresh a o Hfree)
    as (o' & a' & Hreg & Ha' & _ & Hb & _).
  rewrite Hret, Hres in Hreg. exists o', a'.
  split; [done|]. split; [done|]. split; [done|]. split.
  - intros b Hid. unfold RegisterAgent. unfold GetAgent in Ha'.
    by rewrite Hid, Ha'.
  - intros Hidle Hne Hq Hs.
    unfold OrchestratorLoop_body, ProcessMessageQueue, ScheduleAgent.
    simpl. rewrite Hq, Hs. simpl. unfold pop_scheduled. simpl.
    match goal with
    | |- context [dispatch _ ?o1] =>
        destruct (dispatch_idle (agent_id_ a) a' o1 Ha' Hidle Hne)
          as (a'' & Ha'' & _ & Hh & Hn & _)
    end.
    eexists _, a''. split; [reflexivity|]. done.
Qed.

Lemma RegisterAgent_keeps_refused_agent_witness :
  exists o' a',
    RegisterAgent (Some (RefusingAgent "agent1" "tenant1"))
      new_AgentOrchestrator = (Return false, o') /\
    GetAgent "agent1" o' = Some a' /\
    orchestrator_ a' = true /\
    (forall b, agent_id_ b = "agent1" ->
               RegisterAgent (Some b) o' = (Return false, o')) /\
    (state_ a' = IDLE -> "agent1" <> "" ->
     message_queue_ o' = [] -> scheduled_agents_ o' = [] ->
     exists o'' a'',
       OrchestratorLoop_body (ScheduleAgent "agent1" o') = (Return tt, o'') /\
       GetAgent "agent1" o'' = Some a'' /\
       history_ a'' = history_ a' ++ [MExecute] /\
       execute_count a'' = S (execute_count a')).
Proof.
  apply (RegisterAgent_keeps_refused_agent new_AgentOrchestrator
           (RefusingAgent "agent1" "tenant1")); reflexivity.
Defined.

Example refused_agent_is_dispatched :
  exists o a',
    run [EvRegisterAgent (Some (RefusingAgent "agent1" "tenant1"));
         EvStart; EvScheduleAgent "agent1"; EvWorker]
      new_AgentOrchestrator = Some o /\
    GetAgent "agent1" o = Some a' /\
    history_ a' = [MInitialize; MExecute] /\ state_ a' = IDLE.
Proof. eexists _, _. repeat split; reflexivity. Qed.

(** *** BroadcastMessage *)

Lemma broadcast_recipients (from ty pl : string) (now : nat -> Z)
    (k : nat) (m : registry) :
  map to_agent_id (broadcast from ty pl now k m)
  = List.filter (other_than from) (map fst m).
Proof.
  revert k. induction m as [|e m IH]; intros k; simpl; [done|].
  unfold other_than at 1.
  destruct (String.eqb (fst e) from); simpl; by rewrite IH.
Qed.

Lemma broadcast_contents (from ty pl : string) (now : nat -> Z)
    (k : nat) (m : registry) :
  Forall (fun message =>
            from_agent_id message = from /\ type message = ty /\
            payload message = pl /\ to_agent_id message <> from)
    (broadcast from ty pl now k m).
Proof.
  revert k. induction m as [|e m IH]; intros k; simpl; [constructor|].
  destruct (String.eqb (fst e) from) eqn:He; [apply IH|].
  constructor; [|apply IH]. simpl. by apply String.eqb_neq in He.
Qed.

Lemma filter_other_than_absent (from : string) (keys : list string) :
  ~ In from keys -> List.filter (other_than from) keys = keys.
Proof.
  induction keys as [|k keys IH]; intros Hnot; simpl; [done|].
  unfold other_than at 1.
  destruct (String.eqb k from) eqn:He; simpl.
  - apply String.eqb_eq in He. exfalso. apply Hnot. by left.
  - f_equal. apply IH. intros Hin. apply Hnot. by right.
Qed.

Lemma filter_other_than_present (from : string) (keys : list string) :
  NoDup keys -> In from keys ->
  S (length (List.filter (other_than from) keys)) = length keys.
Proof.
  induction keys as [|k keys IH]; intros Hnd Hin; simpl; [done|].
  apply NoDup_cons in Hnd as [Hnotin Hnd].
  unfold other_than at 1.
  destruct (String.eqb k from) eqn:He; simpl.
  - apply String.eqb_eq in He. subst k.
    rewrite filter_other_than_absent; [done|].
    by rewrite <- list_elem_of_In.
  - apply String.eqb_neq in He. f_equal. apply IH; [done|].
    destruct Hin as [Heq|Hin]; [done|done].
Qed.

(** Claim C5.  With [n] agents registered, the sender [A] among them,
    [BroadcastMessage(A, T, P)] appends exactly [n - 1] messages to the
    message queue and changes nothing else: one message per registered
    agent other than [A], in the order of the registry, each with sender
    [A], type [T] and payload [P]; none is addressed to [A]. *)
Theorem BroadcastMessage_recipients (A T P : string) (now : nat -> Z)
    (o : AgentOrchestrator) :
  registry_inv o ->
  is_Some (GetAgent A o) ->
  exists messages,
    BroadcastMessage A T P now o
    = mkOrchestrator (running_ o) (agents_ o)
        (message_queue_ o ++ messages) (scheduled_agents_ o) /\
    S (length messages) = length (agents_ o) /\
    map to_agent_id messages
    = List.filter (other_than A) (map fst (agents_ o)) /\
    Forall (fun message =>
              from_agent_id message = A /\ type message = T /\
              payload message = P /\ to_agent_id message <> A)
      messages.
Proof.
  intros [Hnd _] Hreg. exists (broadcast A T P now 0 (agents_ o)).
  split; [reflexivity|]. split; [|split].
  - rewrite <- (length_map to_agent_id), broadcast_recipients.
    rewrite filter_other_than_present; [by rewrite length_map|done|].
    by apply find_is_Some_In.
  - apply broadcast_recipients.
  - apply broadcast_contents.
Qed.

Lemma BroadcastMessage_recipients_witness :
  exists messages,
    BroadcastMessage "agent1" "broadcast" "Hello everyone!"
      (fun k => Z.of_nat k) three_agents
    = mkOrchestrator (running_ three_agents) (agents_ three_agents)
        (message_queue_ three_agents ++ messages)
        (scheduled_agents_ three_agents) /\
    S (length messages) = length (agents_ three_agents) /\
    map to_agent_id messages
    = List.filter (other_than "agent1") (map fst (agents_ three_agents)) /\
    Forall (fun message =>
              from_agent_id message = "agent1" /\
              type message = "broadcast" /\
              payload message = "Hello everyone!" /\
              to_agent_id message <> "agent1")
      messages.
Proof.
  apply (BroadcastMessage_recipients "agent1" "broadcast" "Hello everyone!"
           (fun k => Z.of_nat k) three_agents).
  - apply three_agents_inv.
  - vm_compute. by eexists.
Defined.

Example BroadcastMessage_three_agents :
  map to_agent_id
    (message_queue_
       (BroadcastMessage "agent1" "broadcast" "Hello everyone!"
          (fun k => Z.of_nat k) three_agents))
  = ["agent2"; "agent3"].
Proof. reflexivity. Qed.

End OrchestratorProofs.

(** * Further properties of the atom store *)

Module StoreFacts.
Import Atoms.

(** Whatever [AddNode] returns is a node of the requested name, and after
    the call it is found under that name, under its id, and in the bucket
    of its type; its type is the requested one unless it is the node that
    was already stored under the name. *)
Theorem AddNode_result_indexed (next : Z) (s : AtomSpace)
    (t : AtomType) (n : string) :
  store_inv next s ->
  exists a next' s',
    AddNode t n next s = (a, next', s') /\
    IsNode a = true /\ name a = n /\
    GetAtomByName s' n = Some a /\
    GetAtom s' (id a) = Some a /\
    a ∈ GetAtomsByType s' (type a) /\
    (type a = t \/ GetAtomByName s n = Some a).
Proof.
  intros Hinv. unfold AddNode.
  destruct (find_node n s) as [found|] eqn:Hfind.
  - unfold find_node in Hfind.
    destruct (atoms_by_name_ s !! n) as [b|] eqn:Hb; [|done].
    destruct (IsNode b) eqn:Hnode; [|done]. injection Hfind as ->.
    destruct (inv_name _ _ Hinv _ _ Hb) as [Hname Hid].
    eexists _, _, _. split; [reflexivity|]. repeat split; try done.
    + apply AtomsProofs.elem_of_GetAtomsByType.
      by apply (inv_id_type _ _ Hinv (id found)).
    + by right.
  - eexists _, _, _. split; [reflexivity|]. simpl. repeat split.
    + unfold GetAtomByName. simpl. apply lookup_insert_eq.
    + unfold GetAtom. simpl. apply lookup_insert_eq.
    + apply AtomsProofs.elem_of_GetAtomsByType. simpl.
      apply AtomsProofs.elem_of_multimap_insert. by left.
    + by left.
Qed.

Lemma AddNode_result_indexed_witness :
  exists a next' s',
    AddNode PREDICATE_NODE "X" 3 store_XX = (a, next', s') /\
    IsNode a = true /\ name a = "X" /\
    GetAtomByName s' "X" = Some a /\
    GetAtom s' (id a) = Some a /\
    a ∈ GetAtomsByType s' (type a) /\
    (type a = PREDICATE_NODE \/ GetAtomByName store_XX "X" = Some a).
Proof.
  apply (AddNode_result_indexed 3 store_XX PREDICATE_NODE "X").
  apply AtomsProofs.store_XX_inv.
Defined.

(** For a store with consistent indices, the bucket [GetAtomsByType(t)]
    lists exactly the atoms of type [t] that are in the by-id index, each
    of them once. *)
Theorem GetAtomsByType_exact (next : Z) (s : AtomSpace) (t : AtomType) :
  store_inv next s ->
  NoDup (GetAtomsByType s t) /\
  forall a, a ∈ GetAtomsByType s t <->
            GetAtom s (id a) = Some a /\ type a = t.
Proof.
  intros Hinv. split.
  - apply (NoDup_fmap_1 id). unfold GetAtomsByType, equal_range.
    rewrite <- list_fmap_compose.
    eapply sublist_NoDup; [apply (inv_type_once _ _ Hinv)|].
    apply fmap_sublist, sublist_filter.
  - intros a. rewrite AtomsProofs.elem_of_GetAtomsByType. split.
    + intros Ha. apply (inv_type_id _ _ Hinv) in Ha as [-> Ha]. done.
    + intros [Ha <-]. by apply (inv_id_type _ _ Hinv (id a)).
Qed.

Lemma GetAtomsByType_exact_witness :
  NoDup (GetAtomsByType store_XX CONCEPT_NODE) /\
  forall a, a ∈ GetAtomsByType store_XX CONCEPT_NODE <->
            GetAtom store_XX (id a) = Some a /\ type a = CONCEPT_NODE.
Proof.
  apply (GetAtomsByType_exact 3 store_XX CONCEPT_NODE).
  apply AtomsProofs.store_XX_inv.
Defined.

Lemma length_by_type (next : Z) (s : AtomSpace) :
  store_inv next s -> length (atoms_by_type_ s) = Size s.
Proof.
  intros Hinv. unfold Size.
  rewrite <- length_map_to_list.
  rewrite <- (length_fmap fst (map_to_list (atoms_by_id_ s))).
  rewrite <- (length_fmap (fun e => id (snd e)) (atoms_by_type_ s)).
  apply Permutation_length, NoDup_Permutation.
  - apply (inv_type_once _ _ Hinv).
  - apply NoDup_fst_map_to_list.
  - intros i. rewrite !list_elem_of_fmap. split.
    + intros [[t a] [-> Ha]]. simpl.
      apply (inv_type_id _ _ Hinv) in Ha as [_ Ha].
      exists (id a, a). split; [done|]. by apply elem_of_map_to_list.
    + intros [[j a] [-> Ha]]. simpl. apply elem_of_map_to_list in Ha.
      exists (type a, a). simpl. split.
      * symmetry. apply (inv_id_key _ _ Hinv _ _ Ha).
      * by apply (inv_id_type _ _ Hinv j).
Qed.

Lemma length_by_buckets (m : multimap) :
  length m
  = sum_list ((fun t => length (snd <$> equal_range t m)) <$> all_types).
Proof.
  unfold equal_range.
  induction m as [|[k v] m IH]; [done|].
  cbn [length]. rewrite IH. unfold all_types. cbn [fmap list_fmap sum_list].
  rewrite !(filter_cons _ (k, v)). rewrite !length_fmap.
  destruct k; simpl;
    repeat (case_decide; [|try done]); try done; cbn [length]; lia.
Qed.

(** For a store with consistent indices, [Size()] is the sum of the sizes
    of the buckets [GetAtomsByType] returns for the nine atom types. *)
Theorem Size_sum_of_buckets (next : Z) (s : AtomSpace) :
  store_inv next s ->
  Size s
  = sum_list ((fun t => length (GetAtomsByType s t)) <$> all_types).
Proof.
  intros Hinv. rewrite <- (length_by_type next s Hinv).
  apply length_by_buckets.
Qed.

Lemma Size_sum_of_buckets_witness :
  Size store_XX
  = sum_list ((fun t => length (GetAtomsByType store_XX t)) <$> all_types).
Proof.
  apply (Size_sum_of_buckets 3 store_XX). apply AtomsProofs.store_XX_inv.
Defined.

(** *** The order inside the by-type index *)

Lemma multimap_insert_sorted (k : AtomType) (v : Atom) (m : multimap) :
  multimap_sorted m -> multimap_sorted (multimap_insert k v m).
Proof.
  unfold multimap_sorted. intros Hs.
  induction Hs as [|e m Hs IH Hall]; simpl.
  - repeat constructor.
  - destruct (AtomType_value k <? AtomType_value (fst e)) eqn:Hlt.
    + apply Z.ltb_lt in Hlt. constructor; [by constructor|].
      constructor; [simpl; lia|].
      eapply Forall_impl; [exact Hall|]. simpl. intros; lia.
    + apply Z.ltb_ge in Hlt. constructor; [done|].
      rewrite AtomsProofs.multimap_insert_perm. by constructor.
Qed.

Lemma multimap_erase_id_sorted (k : AtomType) (i : Z) (m : multimap) :
  multimap_sorted m -> multimap_sorted (multimap_erase_id k i m).
Proof.
  unfold multimap_sorted. intros Hs.
  induction Hs as [|e m Hs IH Hall]; simpl; [constructor|].
  destruct (bool_decide (fst e = k) && (id (snd e) =? i)); [done|].
  constructor; [done|].
  apply Forall_forall. intros x Hx. rewrite Forall_forall in Hall.
  apply Hall. clear -Hx. induction m as [|e' m IH]; simpl in Hx; [done|].
  destruct (bool_decide (fst e' = k) && (id (snd e') =? i)).
  - by right.
  - apply elem_of_cons in Hx as [->|Hx]; [by left|right; by apply IH].
Qed.

Lemma equal_range_above (k : AtomType) (m : multimap) :
  Forall (fun e => AtomType_value k < AtomType_value (fst e)) m ->
  equal_range k m = [].
Proof.
  unfold equal_range. induction 1 as [|e m He Hall IH]; [done|].
  rewrite filter_cons_False; [done|]. intros Heq. rewrite Heq in He. lia.
Qed.

Lemma equal_range_insert_eq (k : AtomType) (v : Atom) (m : multimap) :
  multimap_sorted m ->
  equal_range k (multimap_insert k v m) = equal_range k m ++ [(k, v)].
Proof.
  unfold multimap_sorted. intros Hs.
  induction Hs as [|e m Hs IH Hall]; cbn [multimap_insert].
  - unfold equal_range. by rewrite filter_cons_True.
  - destruct (AtomType_value k <? AtomType_value (fst e)) eqn:Hlt.
    + apply Z.ltb_lt in Hlt.
      assert (Hnone : equal_range k (e :: m) = []).
      { apply equal_range_above. constructor; [done|].
        eapply Forall_impl; [exact Hall|]. simpl. intros; lia. }
      rewrite Hnone. unfold equal_range in *.
      rewrite filter_cons_True by done. by rewrite Hnone.
    + unfold equal_range in *. rewrite !(filter_cons _ e).
      destruct (decide (fst e = k)); by rewrite IH.
Qed.

(** In a store whose by-type index is in key order, a newly constructed
    atom goes to the end of the bucket of its type, the other buckets stay
    as they are, and the index stays in key order.  This holds for the link
    [AddLink] constructs and for the node [AddNode] constructs when it does
    not find a node under the name; when it finds one, no bucket changes. *)
Theorem new_atom_last_in_bucket (next : Z) (s : AtomSpace)
    (t : AtomType) (n : string) (outgoing : list Atom) :
  multimap_sorted (atoms_by_type_ s) ->
  (let s' := snd (AddLink t n outgoing next s) in
   GetAtomsByType s' t = GetAtomsByType s t ++ [Link t n next outgoing] /\
   (forall t', t' <> t -> GetAtomsByType s' t' = GetAtomsByType s t') /\
   multimap_sorted (atoms_by_type_ s')) /\
  (let s' := snd (AddNode t n next s) in
   (find_node n s = None ->
    GetAtomsByType s' t = GetAtomsByType s t ++ [Node t n next]) /\
   (is_Some (find_node n s) -> GetAtomsByType s' t = GetAtomsByType s t) /\
   (forall t', t' <> t -> GetAtomsByType s' t' = GetAtomsByType s t') /\
   multimap_sorted (atoms_by_type_ s')).
Proof.
  intros Hs.
  assert (Hadd : forall a,
    (snd <$> equal_range t (multimap_insert t a (atoms_by_type_ s)))
    = (snd <$> equal_range t (atoms_by_type_ s)) ++ [a]).
  { intros a. rewrite equal_range_insert_eq by done. by rewrite fmap_app. }
  assert (Hother : forall a t', t' <> t ->
    (snd <$> equal_range t' (multimap_insert t a (atoms_by_type_ s)))
    = (snd <$> equal_range t' (atoms_by_type_ s))).
  { intros a t' Hne. rewrite AtomsProofs.equal_range_insert_ne; done. }
  split.
  - simpl. split; [apply Hadd|]. split; [apply Hother|].
    by apply multimap_insert_sorted.
  - unfold AddNode. destruct (find_node n s) as [found|]; simpl.
    + split; [done|]. split; [done|]. split; done.
    + split; [intros _; apply Hadd|]. split; [by intros [? ?]|].
      split; [apply Hother|]. by apply multimap_insert_sorted.
Qed.

Lemma store_X_sorted : multimap_sorted (atoms_by_type_ store_X).
Proof. repeat constructor. Qed.

Lemma new_atom_last_in_bucket_witness :
  (let s' := snd (AddLink CONCEPT_NODE "Y" [] 2 store_X) in
   GetAtomsByType s' CONCEPT_NODE
   = GetAtomsByType store_X CONCEPT_NODE ++ [Link CONCEPT_NODE "Y" 2 []] /\
   (forall t', t' <> CONCEPT_NODE ->
               GetAtomsByType s' t' = GetAtomsByType store_X t') /\
   multimap_sorted (atoms_by_type_ s')) /\
  (let s' := snd (AddNode CONCEPT_NODE "Y" 2 store_X) in
   (find_node "Y" store_X = None ->
    GetAtomsByType s' CONCEPT_NODE
    = GetAtomsByType store_X CONCEPT_NODE ++ [Node CONCEPT_NODE "Y" 2]) /\
   (is_Some (find_node "Y" store_X) ->
    GetAtomsByType s' CONCEPT_NODE = GetAtomsByType store_X CONCEPT_NODE) /\
   (forall t', t' <> CONCEPT_NODE ->
               GetAtomsByType s' t' = GetAtomsByType store_X t') /\
   multimap_sorted (atoms_by_type_ s')).
Proof.
  apply (new_atom_last_in_bucket 2 store_X CONCEPT_NODE "Y" []).
  apply store_X_sorted.
Defined.

(** *** RemoveAtom, again *)

(** A second [RemoveAtom] of the same id finds nothing: it returns false
    and leaves the store as the first call left it.  So does any
    [RemoveAtom] of an id that is not stored. *)
Theorem RemoveAtom_twice (s : AtomSpace) (i : Z) :
  RemoveAtom i (snd (RemoveAtom i s)) = (false, snd (RemoveAtom i s)) /\
  (GetAtom s i = None -> RemoveAtom i s = (false, s)).
Proof.
  split.
  - unfold RemoveAtom at 2 3.
    destruct (atoms_by_id_ s !! i) as [a|] eqn:Ha; simpl.
    + unfold RemoveAtom. simpl. by rewrite lookup_delete_eq.
    + unfold RemoveAtom. by rewrite Ha.
  - unfold GetAtom, RemoveAtom. by intros ->.
Qed.

(** After the atom stored under a name has been removed, [AddNode] with
    that name does not bring it back: it constructs a new node under the
    id the counter holds, which differs from the removed atom's id; the
    removed id stays unused and [Size()] is what it was before the
    removal. *)
Theorem AddNode_after_RemoveAtom (next : Z) (s : AtomSpace)
    (t : AtomType) (n : string) (a : Atom) :
  store_inv next s ->
  GetAtomByName s n = Some a ->
  exists s1 s2,
    RemoveAtom (id a) s = (true, s1) /\
    AddNode t n next s1 = (Node t n next, incr_uint64 next, s2) /\
    id a <> next /\
    GetAtomByName s2 n = Some (Node t n next) /\
    GetAtom s2 (id a) = None /\
    Size s2 = Size s.
Proof.
  intros Hinv Hn. unfold GetAtomByName in Hn.
  destruct (inv_name _ _ Hinv _ _ Hn) as [Hname Hid].
  pose proof (inv_id_old _ _ Hinv _ _ Hid) as Hold.
  eexists _, _. unfold RemoveAtom. rewrite Hid. split; [reflexivity|].
  unfold AddNode, find_node. simpl. rewrite Hname, lookup_delete_eq.
  split; [reflexivity|]. split; [lia|].
  unfold GetAtomByName, GetAtom, Size. simpl.
  split; [apply lookup_insert_eq|]. split.
  - rewrite lookup_insert_ne by lia. apply lookup_delete_eq.
  - rewrite map_size_insert_None.
    + rewrite map_size_delete, Hid.
      assert (size (atoms_by_id_ s) <> 0%nat); [|simpl; lia].
      intros Hz. apply map_size_empty_iff in Hz. rewrite Hz in Hid.
      by rewrite lookup_empty in Hid.
    + rewrite lookup_delete_ne by lia.
      apply (AtomsProofs.store_inv_fresh next); [done|lia].
Qed.

Lemma AddNode_after_RemoveAtom_witness :
  exists s1 s2,
    RemoveAtom (id link_X) store_XX = (true, s1) /\
    AddNode CONCEPT_NODE "X" 3 s1
    = (Node CONCEPT_NODE "X" 3, incr_uint64 3, s2) /\
    id link_X <> 3 /\
    GetAtomByName s2 "X" = Some (Node CONCEPT_NODE "X" 3) /\
    GetAtom s2 (id link_X) = None /\
    Size s2 = Size store_XX.
Proof.
  apply (AddNode_after_RemoveAtom 3 store_XX CONCEPT_NODE "X" link_X).
  - apply AtomsProofs.store_XX_inv.
  - reflexivity.
Defined.

(** *** Query *)

(** [Query] returns exactly the stored atoms the predicate accepts: an atom
    is in the result if and only if it is in the by-id index and the
    predicate holds of it.  The result is never longer than [Size()], and
    the predicate that accepts everything returns [Size()] atoms. *)
Theorem Query_exact (predicate : Atom -> bool) (s : AtomSpace) :
  (forall a, a ∈ Query predicate s <->
             predicate a = true /\ exists i, GetAtom s i = Some a) /\
  (length (Query predicate s) <= Size s)%nat /\
  length (Query (fun _ => true) s) = Size s.
Proof.
  assert (Hlen : length (snd <$> map_to_list (atoms_by_id_ s)) = Size s).
  { by rewrite length_fmap, length_map_to_list. }
  unfold Query. split; [|split].
  - intros a. rewrite list_elem_of_In, List.filter_In, <- list_elem_of_In.
    rewrite list_elem_of_fmap. split.
    + intros [[[i b] [-> Hb]] Hp]. split; [done|]. exists i.
      by apply elem_of_map_to_list.
    + intros [Hp [i Hi]]. split; [|done]. exists (i, a). split; [done|].
      by apply elem_of_map_to_list.
  - rewrite <- Hlen. apply List.filter_length_le.
  - by rewrite List.filter_true.
Qed.

End StoreFacts.

(** * Further properties of the store manager *)

Module ManagerFacts.
Import Atoms Process.

(** [GetOrCreateAtomSpace] creates at most once: the store it returns is
    the one the manager holds under the tenant afterwards, a second call
    returns the same store and changes nothing, and no other tenant's
    store is touched.  A store that had to be created is empty and carries
    the tenant's id, and the tenant count grows by one; when the tenant had
    a store, the manager is unchanged. *)
Theorem GetOrCreateAtomSpace_once (tenant : string) (p : Process) :
  exists s p1,
    GetOrCreateAtomSpace tenant p = (s, p1) /\
    GetAtomSpace tenant p1 = Some s /\
    GetOrCreateAtomSpace tenant p1 = (s, p1) /\
    (forall other, other <> tenant ->
                   GetAtomSpace other p1 = GetAtomSpace other p) /\
    (GetAtomSpace tenant p = None ->
     s = new_AtomSpace tenant /\ Size s = 0%nat /\
     TenantCount p1 = S (TenantCount p)) /\
    (is_Some (GetAtomSpace tenant p) -> p1 = p).
Proof.
  unfold GetOrCreateAtomSpace, GetAtomSpace, TenantCount.
  destruct (atomspaces_ p !! tenant) as [s|] eqn:Hs.
  - exists s, p. rewrite Hs. repeat split; try done.
  - eexists _, _. split; [reflexivity|]. simpl.
    rewrite lookup_insert_eq.
    split; [done|]. split; [done|].
    split; [intros other Hne; by rewrite lookup_insert_ne|].
    split; [|by intros [? ?]].
    intros _. split; [done|]. split; [done|].
    by rewrite map_size_insert_None.
Qed.

(** [RemoveAtomSpace] returns true exactly when the tenant had a store.
    Afterwards the tenant has none, the other tenants' stores are
    unchanged, and the id counter is what it was; the tenant count drops
    by one when a store was removed, and nothing changes otherwise.  A
    later [GetOrCreateAtomSpace] for the tenant returns an empty store. *)
Theorem RemoveAtomSpace_result (tenant : string) (p : Process) :
  exists r p1,
    RemoveAtomSpace tenant p = (r, p1) /\
    (r = true <-> is_Some (GetAtomSpace tenant p)) /\
    GetAtomSpace tenant p1 = None /\
    (forall other, other <> tenant ->
                   GetAtomSpace other p1 = GetAtomSpace other p) /\
    next_id_ p1 = next_id_ p /\
    (r = true -> TenantCount p = S (TenantCount p1)) /\
    (r = false -> p1 = p) /\
    fst (GetOrCreateAtomSpace tenant p1) = new_AtomSpace tenant.
Proof.
  eexists _, _. split; [reflexivity|].
  unfold GetAtomSpace, TenantCount, GetOrCreateAtomSpace. simpl.
  rewrite lookup_delete_eq. split; [apply bool_decide_eq_true|].
  split; [done|]. split; [intros other Hne; by rewrite lookup_delete_ne|].
  split; [done|]. split; [|split; [|done]].
  - intros Hr. apply bool_decide_eq_true in Hr as [s Hs].
    rewrite map_size_delete, Hs.
    assert (size (atomspaces_ p) <> 0%nat); [|simpl; lia].
    intros Hz. apply map_size_empty_iff in Hz. rewrite Hz in Hs.
    by rewrite lookup_empty in Hs.
  - intros Hr. apply bool_decide_eq_false in Hr.
    rewrite delete_id; [by destruct p|].
    destruct (atomspaces_ p !! tenant) eqn:Hs; [|done].
    exfalso. apply Hr. by eexists.
Qed.

(** [GetTenantIds] lists each tenant that has a store exactly once, and
    nothing else; its length is [TenantCount()]. *)
Theorem GetTenantIds_exact (p : Process) :
  NoDup (GetTenantIds p) /\
  length (GetTenantIds p) = TenantCount p /\
  forall tenant, tenant ∈ GetTenantIds p <-> is_Some (GetAtomSpace tenant p).
Proof.
  unfold GetTenantIds, TenantCount, GetAtomSpace. split; [|split].
  - apply NoDup_fst_map_to_list.
  - by rewrite length_fmap, length_map_to_list.
  - intros tenant. rewrite list_elem_of_fmap. split.
    + intros [[t s] [-> Hs]]. apply elem_of_map_to_list in Hs. by eexists.
    + intros [s Hs]. exists (tenant, s). split; [done|].
      by apply elem_of_map_to_list.
Qed.

(** *** Tenants do not see each other *)

Lemma step_other_tenant (c : Call) (p : Process) (other : string) :
  call_tenant c <> other ->
  GetAtomSpace other (snd (step c p)) = GetAtomSpace other p.
Proof.
  intros Hne. unfold GetAtomSpace.
  assert (Hget : forall tenant, tenant <> other ->
    atomspaces_ (snd (GetOrCreateAtomSpace tenant p)) !! other
    = atomspaces_ p !! other).
  { intros tenant Ht. unfold GetOrCreateAtomSpace.
    destruct (atomspaces_ p !! tenant); simpl; [done|].
    by rewrite lookup_insert_ne. }
  destruct c as [tenant t n|tenant t n out|tenant i|tenant|tenant];
    simpl in Hne |- *; try specialize (Hget tenant Hne).
  - destruct (GetOrCreateAtomSpace tenant p) as [s p1].
    destruct (AddNode t n (next_id_ p1) s) as [[a next'] s'].
    simpl in *. by rewrite lookup_insert_ne.
  - destruct (GetOrCreateAtomSpace tenant p) as [s p1].
    simpl in *. by rewrite lookup_insert_ne.
  - destruct (GetOrCreateAtomSpace tenant p) as [s p1].
    simpl in *. by rewrite lookup_insert_ne.
  - destruct (GetOrCreateAtomSpace tenant p) as [s p1].
    simpl in *. by rewrite lookup_insert_ne.
  - by rewrite lookup_delete_ne.
Qed.

(** No sequence of store calls made for other tenants changes what the
    manager holds for a tenant: its store, atom for atom, or its having
    none. *)
Theorem run_other_tenants (cs : list Call) (p : Process) (tenant : string) :
  Forall (fun c => call_tenant c <> tenant) cs ->
  GetAtomSpace tenant (snd (run cs p)) = GetAtomSpace tenant p.
Proof.
  intros Hall. revert p.
  induction Hall as [|c cs Hc Hall IH]; intros p; [done|].
  cbn [run]. pose proof (step_other_tenant c p tenant Hc) as Hstep.
  destruct (step c p) as [o p1]. simpl in Hstep.
  specialize (IH p1). destruct (run cs p1) as [ids p2]. simpl in *.
  by rewrite IH.
Qed.

(** *** Stores reached by runs *)

Lemma AddNode_tenant_id t n next s :
  tenant_id_ (snd (AddNode t n next s)) = tenant_id_ s.
Proof. unfold AddNode. by destruct (find_node n s). Qed.

Lemma RemoveAtom_tenant_id i s :
  tenant_id_ (snd (RemoveAtom i s)) = tenant_id_ s.
Proof. unfold RemoveAtom. by destruct (atoms_by_id_ s !! i). Qed.

Lemma tenants_inv_GetOrCreateAtomSpace (tenant : string) (p : Process) :
  tenants_inv p ->
  tenants_inv (snd (GetOrCreateAtomSpace tenant p)) /\
  tenant_id_ (fst (GetOrCreateAtomSpace tenant p)) = tenant.
Proof.
  intros Hp. unfold GetOrCreateAtomSpace.
  destruct (atomspaces_ p !! tenant) as [s|] eqn:Hs; simpl.
  - split; [done|]. by apply (Hp tenant).
  - split; [|done]. intros tenant' s'. simpl. rewrite lookup_insert.
    case_decide; [by intros [= <-]; subst|]. apply (Hp tenant').
Qed.

Lemma tenants_inv_put (tenant : string) (s : AtomSpace) (next : Z)
    (p : Process) :
  tenants_inv p -> tenant_id_ s = tenant -> tenants_inv (put tenant s next p).
Proof.
  intros Hp Hs tenant' s'. unfold put. simpl. rewrite lookup_insert.
  case_decide; [by intros [= <-]; subst|]. apply (Hp tenant').
Qed.

Lemma tenants_inv_step (c : Call) (p : Process) :
  tenants_inv p -> tenants_inv (snd (step c p)).
Proof.
  intros Hp.
  destruct c as [tenant t n|tenant t n out|tenant i|tenant|tenant]; simpl;
    try (destruct (tenants_inv_GetOrCreateAtomSpace tenant p Hp)
           as [Hp1 Hs];
         destruct (GetOrCreateAtomSpace tenant p) as [s p1]; simpl in * ).
  - pose proof (AddNode_tenant_id t n (next_id_ p1) s) as Ht.
    destruct (AddNode t n (next_id_ p1) s) as [[a next'] s']. simpl in *.
    apply tenants_inv_put; [done|congruence].
  - by apply tenants_inv_put.
  - apply tenants_inv_put; [done|]. by rewrite RemoveAtom_tenant_id.
  - by apply tenants_inv_put.
  - intros tenant' s'. simpl. rewrite lookup_delete.
    case_decide; [done|]. apply (Hp tenant').
Qed.

Lemma tenants_inv_run (cs : list Call) :
  forall p, tenants_inv p -> tenants_inv (snd (run cs p)).
Proof.
  induction cs as [|c cs IH]; intros p Hp; [done|]. cbn [run].
  pose proof (tenants_inv_step c p Hp) as Hp1.
  destruct (step c p) as [o p1]. specialize (IH p1 Hp1).
  by destruct (run cs p1).
Qed.

Lemma stores_sorted_put (tenant : string) (s : AtomSpace) (next : Z)
    (p : Process) :
  stores_sorted p -> multimap_sorted (atoms_by_type_ s) ->
  stores_sorted (put tenant s next p).
Proof.
  intros Hp Hs tenant' s'. unfold put. simpl. rewrite lookup_insert.
  case_decide; [by intros [= <-]|]. apply (Hp tenant').
Qed.

Lemma stores_sorted_GetOrCreateAtomSpace (tenant : string) (p : Process) :
  stores_sorted p ->
  stores_sorted (snd (GetOrCreateAtomSpace tenant p)) /\
  multimap_sorted (atoms_by_type_ (fst (GetOrCreateAtomSpace tenant p))).
Proof.
  intros Hp. unfold GetOrCreateAtomSpace.
  destruct (atomspaces_ p !! tenant) as [s|] eqn:Hs; simpl.
  - split; [done|]. by apply (Hp tenant).
  - split; [|constructor]. intros tenant' s'. simpl. rewrite lookup_insert.
    case_decide; [intros [= <-]; constructor|]. apply (Hp tenant').
Qed.

Lemma stores_sorted_step (c : Call) (p : Process) :
  stores_sorted p -> stores_sorted (snd (step c p)).
Proof.
  intros Hp.
  destruct c as [tenant t n|tenant t n out|tenant i|tenant|tenant]; simpl;
    try (destruct (stores_sorted_GetOrCreateAtomSpace tenant p Hp)
           as [Hp1 Hs];
         destruct (GetOrCreateAtomSpace tenant p) as [s p1]; simpl in * ).
  - assert (Ht : multimap_sorted
                   (atoms_by_type_ (snd (AddNode t n (next_id_ p1) s)))).
    { unfold AddNode. destruct (find_node n s); simpl; [done|].
      by apply StoreFacts.multimap_insert_sorted. }
    destruct (AddNode t n (next_id_ p1) s) as [[a next'] s']. simpl in *.
    by apply stores_sorted_put.
  - apply stores_sorted_put; [done|]. simpl.
    by apply StoreFacts.multimap_insert_sorted.
  - apply stores_sorted_put; [done|]. unfold RemoveAtom.
    destruct (atoms_by_id_ s !! i); simpl; [|done].
    by apply StoreFacts.multimap_erase_id_sorted.
  - apply stores_sorted_put; [done|]. constructor.
  - intros tenant' s'. simpl. rewrite lookup_delete.
    case_decide; [done|]. apply (Hp tenant').
Qed.

Lemma stores_sorted_run (cs : list Call) :
  forall p, stores_sorted p -> stores_sorted (snd (run cs p)).
Proof.
  induction cs as [|c cs IH]; intros p Hp; [done|]. cbn [run].
  pose proof (stores_sorted_step c p Hp) as Hp1.
  destruct (step c p) as [o p1]. specialize (IH p1 Hp1).
  by destruct (run cs p1).
Qed.

(** Starting from a process that has constructed no atom and holds no
    store, after any sequence of [AddNode], [AddLink], [RemoveAtom],
    [Clear] and [RemoveAtomSpace] calls short enough for the 64-bit
    counter not to wrap, every store the manager holds has mutually
    consistent indices, is held under its own tenant id, and keeps its
    by-type index in key order. *)
Theorem reachable_stores_consistent (cs : list Call) :
  1 + Z.of_nat (length cs) < UINT64_MOD ->
  stores_inv (snd (run cs initial)) /\
  tenants_inv (snd (run cs initial)) /\
  stores_sorted (snd (run cs initial)).
Proof.
  intros Hroom. split; [|split].
  - apply (ProcessProofs.stores_inv_run cs initial);
      [simpl; unfold initial_next_id_; lia|done|].
    apply ProcessProofs.stores_inv_initial.
  - apply (tenants_inv_run cs initial).
    intros t' s' H'. simpl in H'. by rewrite lookup_empty in H'.
  - apply (stores_sorted_run cs initial).
    intros t' s' H'. simpl in H'. by rewrite lookup_empty in H'.
Qed.

Lemma reachable_stores_consistent_witness :
  stores_inv (snd (run sample_calls initial)) /\
  tenants_inv (snd (run sample_calls initial)) /\
  stores_sorted (snd (run sample_calls initial)).
Proof.
  apply (reachable_stores_consistent sample_calls).
  vm_compute. reflexivity.
Defined.

Lemma run_other_tenants_witness :
  GetAtomSpace "tenant1" (snd (run second_tenant_calls first_tenant_only))
  = GetAtomSpace "tenant1" first_tenant_only.
Proof.
  apply (run_other_tenants second_tenant_calls first_tenant_only "tenant1").
  unfold second_tenant_calls. repeat constructor; simpl; discriminate.
Defined.

End ManagerFacts.

(** * Further properties of the orchestrator *)

Module OrchestratorFacts.
Import Agents Orchestrator OrchestratorProofs.

(** *** The registry, again *)

Lemma erase_insert (k : string) (v : Agent) (m : registry) :
  find k m = None -> erase k (insert k v m) = m.
Proof.
  induction m as [|e m IH]; simpl.
  - by rewrite String.eqb_refl.
  - destruct (String.eqb k (fst e)) eqn:He; [done|]. intros Hnone.
    destruct (String.compare k (fst e)) eqn:Hc; simpl.
    + apply String.compare_eq_iff in Hc. apply String.eqb_neq in He. done.
    + by rewrite String.eqb_refl.
    + by rewrite He, IH.
Qed.

Lemma find_erase_eq (k : string) (m : registry) :
  NoDup (map fst m) -> find k (erase k m) = None.
Proof.
  induction m as [|e m IH]; simpl; [done|]. intros Hnd.
  apply NoDup_cons in Hnd as [Hnotin Hnd].
  destruct (String.eqb k (fst e)) eqn:He; simpl.
  - apply String.eqb_eq in He. subst k.
    destruct (find (fst e) m) eqn:Hf; [|done].
    exfalso. apply Hnotin. rewrite list_elem_of_In.
    apply find_is_Some_In. by eexists.
  - rewrite He. by apply IH.
Qed.

Lemma length_erase (k : string) (a : Agent) (m : registry) :
  find k m = Some a -> length m = S (length (erase k m)).
Proof.
  induction m as [|e m IH]; simpl; [done|].
  destruct (String.eqb k (fst e)); [done|]. intros Hf. simpl.
  by rewrite (IH Hf).
Qed.

Lemma length_mutate (k : string) (v : Agent) (m : registry) :
  length (mutate k v m) = length m.
Proof.
  rewrite <- (length_map fst (mutate k v m)), mutate_keys.
  apply length_map.
Qed.

(** *** UnregisterAgent *)

(** [UnregisterAgent] of an id that is not registered returns false and
    changes nothing.  For a registered agent it invokes [Shutdown()]; when
    that returns, the agent is erased, the call returns true, the id is free
    again, the other agents stay and the registry is one agent smaller.
    When [Shutdown()] throws, the exception leaves [UnregisterAgent] and the
    agent is still registered. *)
Theorem UnregisterAgent_result (agent_id : string) (o : AgentOrchestrator) :
  registry_inv o ->
  (GetAgent agent_id o = None ->
   UnregisterAgent agent_id o = (Return false, o)) /\
  (forall a, GetAgent agent_id o = Some a ->
     (r_outcome (vtable_ a (history_ a) (state_ a) MShutdown) = Returns ->
      exists o', UnregisterAgent agent_id o = (Return true, o') /\
        GetAgent agent_id o' = None /\
        (forall k, k <> agent_id -> GetAgent k o' = GetAgent k o) /\
        length (agents_ o) = S (length (agents_ o'))) /\
     (r_outcome (vtable_ a (history_ a) (state_ a) MShutdown) = Throws ->
      exists o' a', UnregisterAgent agent_id o = (Raise, o') /\
        GetAgent agent_id o' = Some a' /\
        history_ a' = history_ a ++ [MShutdown] /\
        (forall k, k <> agent_id -> GetAgent k o' = GetAgent k o) /\
        length (agents_ o') = length (agents_ o))).
Proof.
  intros [Hnd _]. unfold GetAgent, UnregisterAgent. split.
  - by intros ->.
  - intros a Ha. rewrite Ha. unfold invoke. simpl. split; intros ->.
    + eexists. split; [reflexivity|]. simpl.
      split; [by apply find_erase_eq|].
      split; [intros k Hk; apply find_erase_ne; done|].
      by apply (length_erase agent_id a).
    + eexists _, _. split; [reflexivity|]. simpl.
      split; [by apply (find_mutate_eq agent_id _ a)|].
      split; [done|].
      split; [intros k Hk; apply find_mutate_ne; done|].
      apply length_mutate.
Qed.

Lemma UnregisterAgent_result_witness :
  (GetAgent "agent2" three_agents = None ->
   UnregisterAgent "agent2" three_agents = (Return false, three_agents)) /\
  (forall a, GetAgent "agent2" three_agents = Some a ->
     (r_outcome (vtable_ a (history_ a) (state_ a) MShutdown) = Returns ->
      exists o', UnregisterAgent "agent2" three_agents = (Return true, o') /\
        GetAgent "agent2" o' = None /\
        (forall k, k <> "agent2" -> GetAgent k o' = GetAgent k three_agents) /\
        length (agents_ three_agents) = S (length (agents_ o'))) /\
     (r_outcome (vtable_ a (history_ a) (state_ a) MShutdown) = Throws ->
      exists o' a', UnregisterAgent "agent2" three_agents = (Raise, o') /\
        GetAgent "agent2" o' = Some a' /\
        history_ a' = history_ a ++ [MShutdown] /\
        (forall k, k <> "agent2" -> GetAgent k o' = GetAgent k three_agents) /\
        length (agents_ o') = length (agents_ three_agents))).
Proof.
  apply (UnregisterAgent_result "agent2" three_agents).
  apply three_agents_inv.
Defined.

(** Registering an agent under a free id and then unregistering that id
    gives back the registry as it was, entry for entry, whatever
    [Initialize()] returned or threw, as long as [Shutdown()] does not
    throw; the schedule queue is not touched. *)
Theorem Register_then_Unregister (a : Agent) (o : AgentOrchestrator) :
  GetAgent (agent_id_ a) o = None ->
  Shutdown_never_throws a ->
  exists o1 o2 c,
    RegisterAgent (Some a) o = (c, o1) /\
    UnregisterAgent (agent_id_ a) o1 = (Return true, o2) /\
    agents_ o2 = agents_ o /\
    scheduled_agents_ o2 = scheduled_agents_ o /\
    running_ o2 = running_ o.
Proof.
  intros Hfree Hshut. unfold GetAgent in Hfree.
  eexists _, _, _. unfold RegisterAgent. rewrite Hfree.
  unfold invoke. simpl. split; [reflexivity|].
  unfold UnregisterAgent. simpl. rewrite find_insert_eq.
  unfold invoke. simpl. rewrite Hshut. simpl.
  split; [reflexivity|]. simpl. split; [|done]. by apply erase_insert.
Qed.

Lemma Register_then_Unregister_witness :
  exists o1 o2 c,
    RegisterAgent (Some (TestAgent "agent15" "tenant2")) three_agents
    = (c, o1) /\
    UnregisterAgent "agent15" o1 = (Return true, o2) /\
    agents_ o2 = agents_ three_agents /\
    scheduled_agents_ o2 = scheduled_agents_ three_agents /\
    running_ o2 = running_ three_agents.
Proof.
  apply (Register_then_Unregister (TestAgent "agent15" "tenant2")
           three_agents).
  - reflexivity.
  - intros h st. reflexivity.
Defined.

(** *** The dispatch *)


(** *** BroadcastMessage from a sender that is not registered *)

(** [BroadcastMessage] does not look the sender up: when no agent is
    registered under the sender's id, every registered agent gets a
    message, in registry order, so [n] agents give [n] messages. *)
Theorem BroadcastMessage_unknown_sender (A T P : string) (now : nat -> Z)
    (o : AgentOrchestrator) :
  GetAgent A o = None ->
  exists messages,
    message_queue_ (BroadcastMessage A T P now o)
    = message_queue_ o ++ messages /\
    length messages = length (agents_ o) /\
    map to_agent_id messages = map fst (agents_ o) /\
    Forall (fun message =>
              from_agent_id message = A /\ type message = T /\
              payload message = P)
      messages.
Proof.
  intros Hnone. unfold GetAgent in Hnone.
  assert (Hkeys : map to_agent_id (broadcast A T P now 0 (agents_ o))
                  = map fst (agents_ o)).
  { rewrite broadcast_recipients. apply filter_other_than_absent.
    rewrite <- find_is_Some_In, Hnone. by intros [? ?]. }
  exists (broadcast A T P now 0 (agents_ o)). split; [done|].
  split; [|split; [done|]].
  - by rewrite <- (length_map to_agent_id), Hkeys, length_map.
  - eapply Forall_impl; [apply broadcast_contents|]. simpl. tauto.
Qed.

Lemma BroadcastMessage_unknown_sender_witness :
  exists messages,
    message_queue_
      (BroadcastMessage "stranger" "broadcast" "hi"
         (fun k => Z.of_nat k) three_agents)
    = message_queue_ three_agents ++ messages /\
    length messages = length (agents_ three_agents) /\
    map to_agent_id messages = map fst (agents_ three_agents) /\
    Forall (fun message =>
              from_agent_id message = "stranger" /\
              type message = "broadcast" /\
              payload message = "hi")
      messages.
Proof.
  apply (BroadcastMessage_unknown_sender "stranger" "broadcast" "hi"
           (fun k => Z.of_nat k) three_agents).
  reflexivity.
Defined.

(** *** The worker while the orchestrator is stopped *)

(** While [running_] is false the worker does nothing, however many steps
    it is given; [Start] and [Stop] change the flag and nothing else, so
    the agents, the queued messages and the scheduled ids are the same
    after a stop and a restart; a second [Start] or [Stop] in a row is a
    no-op. *)
Theorem stopped_worker_keeps_queues (n : nat) (o : AgentOrchestrator) :
  running_ o = false ->
  run (repeat EvWorker n) o = Some o /\
  Stop o = o /\
  Stop (Start o) = o /\
  Start (Start o) = Start o /\
  running_ (Start o) = true /\
  agents_ (Start o) = agents_ o /\
  message_queue_ (Start o) = message_queue_ o /\
  scheduled_agents_ (Start o) = scheduled_agents_ o /\
  run (EvStop :: repeat EvWorker n ++ [EvStart]) (Start o) = Some (Start o).
Proof.
  intros Hr.
  assert (Hidle : forall o1, running_ o1 = false ->
                             run (repeat EvWorker n) o1 = Some o1).
  { intros o1 H1. induction n as [|n IH]; [done|]. simpl. by rewrite H1. }
  assert (Hstop : Stop (Start o) = o).
  { unfold Start, Stop. rewrite Hr. simpl. by destruct o; simpl in *; subst. }
  split; [by apply Hidle|].
  split; [unfold Stop; by rewrite Hr|]. split; [done|].
  split; [unfold Start; rewrite Hr; done|].
  split; [unfold Start; by rewrite Hr|].
  split; [unfold Start; by rewrite Hr|].
  split; [unfold Start; by rewrite Hr|].
  split; [unfold Start; by rewrite Hr|].
  cbn [run exec]. rewrite Hstop.
  assert (Happ : forall es1 es2 o1 o2,
            run es1 o1 = Some o2 -> run (es1 ++ es2) o1 = run es2 o2).
  { induction es1 as [|e es1 IH]; intros es2 o1 o2; simpl.
    - by intros [= ->].
    - destruct (exec e o1); [apply IH|done]. }
  rewrite (Happ _ _ o o (Hidle o Hr)). done.
Qed.

Lemma stopped_worker_keeps_queues_witness :
  run (repeat EvWorker 3) three_agents = Some three_agents /\
  Stop three_agents = three_agents /\
  Stop (Start three_agents) = three_agents /\
  Start (Start three_agents) = Start three_agents /\
  running_ (Start three_agents) = true /\
  agents_ (Start three_agents) = agents_ three_agents /\
  message_queue_ (Start three_agents) = message_queue_ three_agents /\
  scheduled_agents_ (Start three_agents) = scheduled_agents_ three_agents /\
  run (EvStop :: repeat EvWorker 3 ++ [EvStart]) (Start three_agents)
  = Some (Start three_agents).
Proof.
  apply (stopped_worker_keeps_queues 3 three_agents). reflexivity.
Defined.

(** *** Message delivery *)

Lemma Forall_mutate (P : Agent -> Prop) (k : string) (v : Agent)
    (m : registry) :
  Forall (fun e => P (snd e)) m -> P v ->
  Forall (fun e => P (snd e)) (mutate k v m).
Proof.
  intros Hall Hv. induction Hall as [|e m He Hall IH]; simpl; [constructor|].
  destruct (String.eqb k (fst e)); by constructor.
Qed.

Lemma find_Forall (P : Agent -> Prop) (k : string) (a : Agent)
    (m : registry) :
  Forall (fun e => P (snd e)) m -> find k m = Some a -> P a.
Proof.
  intros Hall. induction Hall as [|e m He Hall IH]; simpl; [done|].
  destruct (String.eqb k (fst e)); [by intros [= <-]|done].
Qed.

Lemma received_messages_invoke (message : AgentMessage) (a : Agent) :
  received_messages (fst (invoke (MOnMessage message) a))
  = received_messages a ++ [message].
Proof. unfold received_messages. simpl. by rewrite omap_app. Qed.

Lemma deliver_fifo (messages : list AgentMessage) :
  forall o,
    Forall (fun e => OnMessage_never_throws (snd e)) (agents_ o) ->
    exists o',
      deliver messages o = (Return tt, o') /\
      map fst (agents_ o') = map fst (agents_ o) /\
      scheduled_agents_ o' = scheduled_agents_ o /\
      running_ o' = running_ o /\
      (forall i a, GetAgent i o = Some a ->
         exists a', GetAgent i o' = Some a' /\
           received_messages a'
           = received_messages a ++ addressed_to i messages /\
           execute_count a' = execute_count a) /\
      (forall i, GetAgent i o = None -> GetAgent i o' = None).
Proof.
  induction messages as [|message rest IH]; intros o Hall.
  - exists o. simpl. repeat split; try done.
    intros i a Ha. exists a. by rewrite app_nil_r.
  - cbn [deliver]. unfold GetAgent in *.
    destruct (find (to_agent_id message) (agents_ o)) as [b|] eqn:Hb.
    + pose proof (find_Forall _ _ _ _ Hall Hb) as Hquiet.
      pose proof (received_messages_invoke message b) as Hrecv.
      pose proof (execute_count_invoke (MOnMessage message) b) as Hcount.
      unfold invoke in *. simpl in Hrecv, Hcount |- *.
      rewrite (Hquiet _ _ _).
      match goal with
      | |- context [deliver rest ?x] => set (o1 := x)
      end.
      assert (Hall1 : Forall (fun e => OnMessage_never_throws (snd e))
                        (agents_ o1)).
      { simpl. apply Forall_mutate; [done|]. exact Hquiet. }
      destruct (IH o1 Hall1)
        as (o' & Hd & Hkeys & Hsched & Hrun & Hsome & Hnone).
      exists o'. split; [exact Hd|].
      split; [rewrite Hkeys; simpl; apply mutate_keys|].
      split; [done|]. split; [done|]. split.
      * intros i a Ha. unfold addressed_to. cbn [List.filter].
        destruct (String.eqb (to_agent_id message) i) eqn:Hi.
        -- apply String.eqb_eq in Hi. subst i.
           rewrite Hb in Ha. injection Ha as <-.
           edestruct (Hsome (to_agent_id message))
             as (a' & Ha' & Hrec & Hn).
           { simpl. by apply (find_mutate_eq _ _ b). }
           exists a'. split; [done|]. split.
           ++ rewrite Hrec, Hrecv, <- app_assoc. done.
           ++ rewrite Hn, Hcount. lia.
        -- apply String.eqb_neq in Hi.
           apply (Hsome i a). simpl. by rewrite find_mutate_ne.
      * intros i Hi. apply Hnone. simpl.
        rewrite find_mutate_ne; [done|]. intros Heq. congruence.
    + destruct (IH o Hall)
        as (o' & Hd & Hkeys & Hsched & Hrun & Hsome & Hnone).
      exists o'. split; [done|]. split; [done|]. split; [done|].
      split; [done|]. split; [|done].
      intros i a Ha. unfold addressed_to. cbn [List.filter].
      destruct (String.eqb (to_agent_id message) i) eqn:Hi.
      * apply String.eqb_eq in Hi. congruence.
      * by apply Hsome.
Qed.



Example three_agents_mail_delivered :
  exists o' a2,
    ProcessMessageQueue three_agents_with_mail = (Return tt, o') /\
    GetAgent "agent2" o' = Some a2 /\
    map payload (received_messages a2) = ["first"; "second"] /\
    message_queue_ o' = [].
Proof. eexists _, _. repeat split; reflexivity. Qed.

(** *** The empty agent id *)

Lemma nameless_agents (n : nat) (o o' : AgentOrchestrator) :
  find "" (agents_ o') = find "" (agents_ o) ->
  nameless_executes n o -> nameless_executes n o'.
Proof.
  intros Heq (a & Ha & Hn). exists a. unfold GetAgent in *. by rewrite Heq.
Qed.

Lemma nameless_deliver (n : nat) (messages : list AgentMessage) :
  forall o, nameless_executes n o ->
            nameless_executes n (snd (deliver messages o)).
Proof.
  induction messages as [|message rest IH]; intros o Hn; simpl; [done|].
  unfold GetAgent.
  destruct (find (to_agent_id message) (agents_ o)) as [b|] eqn:Hf;
    [|by apply IH].
  pose proof (execute_count_invoke (MOnMessage message) b) as Hcount.
  unfold invoke in *. simpl in Hcount |- *.
  match goal with
  | |- context [with_agents ?m o] =>
      assert (Hnext : forall q,
        nameless_executes n (push_messages q (with_agents m o)))
  end.
  { intros q. destruct (decide (to_agent_id message = "")) as [Hi|Hi].
    - destruct Hn as (a & Ha & Hna). unfold GetAgent in Ha.
      rewrite Hi in Hf. rewrite Hf in Ha. injection Ha as ->.
      eexists. unfold GetAgent. simpl. rewrite Hi.
      split; [by apply (find_mutate_eq "" _ a)|]. rewrite Hcount. lia.
    - apply (nameless_agents n o); [|done]. simpl.
      by apply find_mutate_ne. }
  destruct (r_outcome _); [apply IH|]; apply Hnext.
Qed.

Lemma nameless_dispatch (n : nat) (k : string) (o : AgentOrchestrator) :
  nameless_executes n o -> nameless_executes n (dispatch k o).
Proof.
  intros Hn. unfold dispatch.
  destruct (String.eqb k "") eqn:Hk; [done|]. apply String.eqb_neq in Hk.
  destruct (GetAgent k o) as [b|]; [|done].
  case_bool_decide; [|done]. unfold invoke. simpl.
  apply (nameless_agents n o); [|done]. simpl. by apply find_mutate_ne.
Qed.

Lemma nameless_body (n : nat) (o : AgentOrchestrator) :
  nameless_executes n o ->
  nameless_executes n (snd (OrchestratorLoop_body o)).
Proof.
  intros Hn. unfold OrchestratorLoop_body, ProcessMessageQueue.
  pose proof (nameless_deliver n (message_queue_ o)
                (mkOrchestrator (running_ o) (agents_ o) []
                   (scheduled_agents_ o)) Hn) as Hd.
  destruct (deliver _ _) as [[u|] o1]; simpl in *; [|done].
  unfold pop_scheduled.
  destruct (scheduled_agents_ o1); simpl; by apply nameless_dispatch.
Qed.

Lemma nameless_exec (n : nat) (e : Event) (o o' : AgentOrchestrator) :
  e <> EvUnregisterAgent "" -> nameless_executes n o ->
  exec e o = Some o' -> nameless_executes n o'.
Proof.
  intros He Hn. destruct e as [agent|k| | |message|f t p now|k|]; simpl;
    try (intros [= <-]).
  - unfold RegisterAgent. destruct agent as [b|]; [|done].
    destruct (find (agent_id_ b) (agents_ o)) eqn:Hf; [done|].
    unfold invoke. simpl. apply (nameless_agents n o); [|done]. simpl.
    apply find_insert_ne. intros Heq.
    destruct Hn as (a & Ha & _). unfold GetAgent in Ha. congruence.
  - assert (Hk : k <> "") by congruence.
    unfold UnregisterAgent. destruct (find k (agents_ o)) eqn:Hf; [|done].
    unfold invoke. simpl.
    destruct (r_outcome _); simpl; (apply (nameless_agents n o); [|done]);
      simpl; [by apply find_erase_ne|by apply find_mutate_ne].
  - unfold Start. by destruct (running_ o).
  - unfold Stop. by destruct (running_ o).
  - done.
  - done.
  - done.
  - destruct (running_ o); [|by intros [= <-]].
    pose proof (nameless_body n o Hn) as Hb.
    destruct (OrchestratorLoop_body o) as [[u|] o1]; [|done].
    by intros [= <-].
Qed.



Example nameless_events_run :
  exists o a',
    run nameless_events nameless_registered = Some o /\
    scheduled_agents_ o = [] /\
    GetAgent "" o = Some a' /\ execute_count a' = 0%nat /\ state_ a' = IDLE.
Proof. eexists _, _. repeat split; reflexivity. Qed.

(** *** One dispatch per pass *)

Lemma total_mutate (k : string) (v a : Agent) (m : registry) :
  find k m = Some a ->
  (list_sum (map (fun e => execute_count (snd e)) (mutate k v m))
   + execute_count a
   = list_sum (map (fun e => execute_count (snd e)) m)
     + execute_count v)%nat.
Proof.
  induction m as [|e m IH]; simpl; [done|].
  destruct (String.eqb k (fst e)); simpl.
  - intros [= ->]. lia.
  - intros Hf. specialize (IH Hf). lia.
Qed.

Lemma deliver_total (messages : list AgentMessage) :
  forall o, total_executes (snd (deliver messages o)) = total_executes o.
Proof.
  induction messages as [|message rest IH]; intros o; simpl; [done|].
  unfold GetAgent.
  destruct (find (to_agent_id message) (agents_ o)) as [b|] eqn:Hf;
    [|by apply IH].
  pose proof (execute_count_invoke (MOnMessage message) b) as Hcount.
  pose proof (total_mutate (to_agent_id message)
                (fst (invoke (MOnMessage message) b)) b (agents_ o) Hf)
    as Htotal.
  unfold invoke in *. simpl in Hcount, Htotal |- *.
  match goal with
  | |- context [push_messages ?q (with_agents ?m o)] =>
      assert (Hnext : total_executes (push_messages q (with_agents m o))
                      = total_executes o)
  end.
  { unfold total_executes. simpl. lia. }
  destruct (r_outcome _); [by rewrite IH|done].
Qed.

Lemma dispatch_total (k : string) (o : AgentOrchestrator) :
  (total_executes o <= total_executes (dispatch k o)
   <= S (total_executes o))%nat.
Proof.
  unfold dispatch. destruct (String.eqb k ""); [lia|].
  destruct (GetAgent k o) as [b|] eqn:Hb; [|lia].
  case_bool_decide; [|lia].
  pose proof (execute_count_invoke MExecute (set_state RUNNING b)) as Hcount.
  unfold invoke in *. simpl in Hcount |- *.
  match goal with
  | |- context [mutate k ?v (agents_ o)] =>
      pose proof (total_mutate k v b (agents_ o) Hb) as Htotal;
      assert (Hv : execute_count v = S (execute_count b))
  end.
  { destruct (r_outcome _); unfold execute_count in *; simpl in *; lia. }
  unfold total_executes. simpl. lia.
Qed.

Lemma ProcessMessageQueue_total (o : AgentOrchestrator) :
  total_executes (snd (ProcessMessageQueue o)) = total_executes o.
Proof. unfold ProcessMessageQueue. by rewrite deliver_total. Qed.


(** *** Scheduled agents that behave *)

Lemma body_quiet (i : string) (a : Agent) (rest : list string)
    (o : AgentOrchestrator) :
  GetAgent i o = Some a -> state_ a = IDLE -> i <> "" ->
  Execute_returns_quietly a ->
  message_queue_ o = [] -> scheduled_agents_ o = i :: rest ->
  exists o' a',
    OrchestratorLoop_body o = (Return tt, o') /\
    GetAgent i o' = Some a' /\ state_ a' = IDLE /\
    vtable_ a' = vtable_ a /\
    execute_count a' = S (execute_count a) /\
    message_queue_ o' = [] /\ scheduled_agents_ o' = rest /\
    running_ o' = running_ o.
Proof.
  intros Ha Hidle Hne Hquiet Hq Hs.
  unfold OrchestratorLoop_body, ProcessMessageQueue, pop_scheduled.
  rewrite Hq. simpl. rewrite Hs. unfold dispatch, GetAgent in *. simpl.
  apply String.eqb_neq in Hne. rewrite Hne, Ha.
  rewrite bool_decide_eq_true_2 by done.
  pose proof (execute_count_invoke MExecute (set_state RUNNING a)) as Hcount.
  unfold invoke in *. simpl in Hcount |- *.
  destruct (Hquiet (history_ a) RUNNING) as [-> ->].
  eexists _, _. split; [reflexivity|]. simpl.
  split; [by apply (find_mutate_eq i _ a)|]. simpl.
  split; [done|]. split; [done|].
  split; [unfold execute_count in *; simpl in *; lia|]. done.
Qed.

(** An [IDLE] agent with a non-empty id whose [Execute] always returns and
    sends nothing, scheduled [n] times on a running orchestrator with no
    message waiting and nothing else scheduled, is executed once in each of
    the next [n] passes of the worker: afterwards [Execute] has been
    invoked [n] more times, the agent is [IDLE] again and the schedule
    queue is empty. *)
Theorem scheduled_n_times_runs_n_times (n : nat) (i : string) (a : Agent)
    (o : AgentOrchestrator) :
  GetAgent i o = Some a -> state_ a = IDLE -> i <> "" ->
  Execute_returns_quietly a ->
  running_ o = true ->
  message_queue_ o = [] -> scheduled_agents_ o = repeat i n ->
  exists o' a',
    run (repeat EvWorker n) o = Some o' /\
    GetAgent i o' = Some a' /\ state_ a' = IDLE /\
    execute_count a' = (execute_count a + n)%nat /\
    scheduled_agents_ o' = [].
Proof.
  intros Ha Hidle Hne Hquiet. revert o a Ha Hidle Hquiet.
  induction n as [|n IH]; intros o a Ha Hidle Hquiet Hrun Hq Hs.
  - exists o, a. simpl. split; [done|]. split; [done|]. split; [done|].
    split; [lia|done].
  - destruct (body_quiet i a (repeat i n) o Ha Hidle Hne Hquiet Hq Hs)
      as (o1 & a1 & Hbody & Ha1 & Hidle1 & Hv1 & Hn1 & Hq1 & Hs1 & Hrun1).
    assert (Hquiet1 : Execute_returns_quietly a1).
    { intros h st. rewrite Hv1. apply Hquiet. }
    destruct (IH o1 a1 Ha1 Hidle1 Hquiet1) as (o' & a' & Hr & Ha' & Hi' & Hn' & Hs');
      [congruence|done|done|].
    exists o', a'. cbn [repeat run exec]. rewrite Hrun, Hbody.
    split; [done|]. split; [done|]. split; [done|]. split; [lia|done].
Qed.

Lemma scheduled_n_times_runs_n_times_witness :
  exists o' a',
    run (repeat EvWorker 3) three_agents_scheduled = Some o' /\
    GetAgent "agent2" o' = Some a' /\ state_ a' = IDLE /\
    execute_count a'
    = (execute_count
         (set_orchestrator true
            (fst (invoke MInitialize (TestAgent "agent2" "tenant1")))) + 3)%nat /\
    scheduled_agents_ o' = [].
Proof.
  apply (scheduled_n_times_runs_n_times 3 "agent2"
           (set_orchestrator true
              (fst (invoke MInitialize (TestAgent "agent2" "tenant1"))))
           three_agents_scheduled).
  - reflexivity.
  - reflexivity.
  - discriminate.
  - intros h st. split; reflexivity.
  - reflexivity.
  - reflexivity.
  - reflexivity.
Defined.

(** *** The order of the registry *)

Lemma ascii_compare_refl (c : Ascii.ascii) : Ascii.compare c c = Eq.
Proof. unfold Ascii.compare. apply N.compare_refl. Qed.

Lemma ascii_compare_trans (a b c : Ascii.ascii) :
  Ascii.compare a b = Lt -> Ascii.compare b c = Lt -> Ascii.compare a c = Lt.
Proof.
  unfold Ascii.compare. rewrite !N.compare_lt_iff. apply N.lt_trans.
Qed.

Lemma string_lt_trans (s1 s2 s3 : string) :
  string_lt s1 s2 -> string_lt s2 s3 -> string_lt s1 s3.
Proof.
  unfold string_lt. revert s2 s3.
  induction s1 as [|a s1 IH]; intros [|b s2] [|c s3]; simpl; try done.
  destruct (Ascii.compare a b) eqn:Hab; try done;
    destruct (Ascii.compare b c) eqn:Hbc; try done.
  - apply Ascii.compare_eq_iff in Hab, Hbc. subst.
    rewrite ascii_compare_refl. apply IH.
  - apply Ascii.compare_eq_iff in Hab. subst. by rewrite Hbc.
  - apply Ascii.compare_eq_iff in Hbc. subst. by rewrite Hab.
  - by rewrite (ascii_compare_trans a b c).
Qed.

Lemma string_gt_lt (s1 s2 : string) :
  String.compare s1 s2 = Gt -> string_lt s2 s1.
Proof.
  unfold string_lt. rewrite (String.compare_antisym s2 s1). by intros ->.
Qed.

Lemma insert_ascending (k : string) (v : Agent) (m : registry) :
  keys_ascending m -> keys_ascending (insert k v m).
Proof.
  unfold keys_ascending. induction m as [|e m IH]; simpl; intros Hs.
  - repeat constructor.
  - apply StronglySorted_inv in Hs as [Hs Hall].
    destruct (String.compare k (fst e)) eqn:Hc; simpl.
    + apply String.compare_eq_iff in Hc. subst k. by constructor.
    + constructor; [by constructor|]. constructor; [done|].
      eapply Forall_impl; [exact Hall|]. simpl. intros x Hx.
      by apply (string_lt_trans k (fst e) x).
    + constructor; [by apply IH|].
      apply Forall_forall. intros x Hx. rewrite list_elem_of_In in Hx.
      apply in_map_iff in Hx as [e' [<- He']].
      apply insert_elem in He' as [<-|He'].
      * simpl. by apply string_gt_lt.
      * rewrite Forall_forall in Hall. apply Hall.
        rewrite list_elem_of_In. apply in_map. done.
Qed.

Lemma erase_In (k : string) (m : registry) e : In e (erase k m) -> In e m.
Proof.
  induction m as [|e' m IH]; simpl; [done|].
  destruct (String.eqb k (fst e')); simpl; tauto.
Qed.

Lemma erase_ascending (k : string) (m : registry) :
  keys_ascending m -> keys_ascending (erase k m).
Proof.
  unfold keys_ascending. induction m as [|e m IH]; simpl; intros Hs; [done|].
  apply StronglySorted_inv in Hs as [Hs Hall].
  destruct (String.eqb k (fst e)); [done|]. simpl.
  constructor; [by apply IH|].
  apply Forall_forall. intros x Hx. rewrite list_elem_of_In in Hx.
  apply in_map_iff in Hx as [e' [<- He']]. apply erase_In in He'.
  rewrite Forall_forall in Hall. apply Hall.
  rewrite list_elem_of_In. by apply in_map.
Qed.

Lemma deliver_keys (messages : list AgentMessage) :
  forall o, map fst (agents_ (snd (deliver messages o))) = map fst (agents_ o).
Proof.
  induction messages as [|message rest IH]; intros o; simpl; [done|].
  destruct (GetAgent (to_agent_id message) o) as [b|]; [|by apply IH].
  unfold invoke. simpl.
  destruct (r_outcome _); [rewrite IH|]; simpl; apply mutate_keys.
Qed.

Lemma dispatch_keys (k : string) (o : AgentOrchestrator) :
  map fst (agents_ (dispatch k o)) = map fst (agents_ o).
Proof.
  unfold dispatch. destruct (String.eqb k ""); [done|].
  destruct (GetAgent k o) as [b|]; [|done].
  case_bool_decide; [|done]. unfold invoke. simpl. apply mutate_keys.
Qed.

Lemma body_keys (o : AgentOrchestrator) :
  map fst (agents_ (snd (OrchestratorLoop_body o))) = map fst (agents_ o).
Proof.
  unfold OrchestratorLoop_body, ProcessMessageQueue.
  pose proof (deliver_keys (message_queue_ o)
                (mkOrchestrator (running_ o) (agents_ o) []
                   (scheduled_agents_ o))) as Hd.
  destruct (deliver _ _) as [[u|] o1]; simpl in *; [|done].
  rewrite <- Hd. unfold pop_scheduled.
  destruct (scheduled_agents_ o1); simpl; by rewrite dispatch_keys.
Qed.

Lemma exec_ascending (e : Event) (o o' : AgentOrchestrator) :
  keys_ascending (agents_ o) -> exec e o = Some o' ->
  keys_ascending (agents_ o').
Proof.
  intros Hs. destruct e as [agent|k| | |message|f t p now|k|]; simpl;
    try (intros [= <-]).
  - unfold RegisterAgent. destruct agent as [b|]; [|done].
    destruct (find (agent_id_ b) (agents_ o)); [done|].
    unfold invoke. simpl. by apply insert_ascending.
  - unfold UnregisterAgent. destruct (find k (agents_ o)); [|done].
    unfold invoke. simpl. destruct (r_outcome _); simpl.
    + by apply erase_ascending.
    + unfold keys_ascending. by rewrite mutate_keys.
  - unfold Start. by destruct (running_ o).
  - unfold Stop. by destruct (running_ o).
  - done.
  - done.
  - done.
  - destruct (running_ o); [|by intros [= <-]].
    pose proof (body_keys o) as Hb.
    destruct (OrchestratorLoop_body o) as [[u|] o1]; [|done].
    intros [= <-]. unfold keys_ascending. simpl in Hb. by rewrite Hb.
Qed.

Lemma filter_ascending (from : string) (keys : list string) :
  StronglySorted string_lt keys ->
  StronglySorted string_lt (List.filter (other_than from) keys).
Proof.
  induction 1 as [|k keys Hs IH Hall]; simpl; [constructor|].
  destruct (other_than from k); [|done]. constructor; [done|].
  apply Forall_forall. intros x Hx. rewrite list_elem_of_In in Hx.
  apply List.filter_In in Hx as [Hx _].
  rewrite Forall_forall in Hall. apply Hall. by rewrite list_elem_of_In.
Qed.

(** The registry is iterated in strictly ascending order of the agent
    ids, whatever the order of the registrations: starting from a new
    orchestrator, after any sequence of calls and worker steps that the
    process survives, the registered ids are strictly ascending, and so
    are the recipients of the messages a [BroadcastMessage] then
    appends. *)
Theorem registry_iterates_ascending (es : list Event)
    (o : AgentOrchestrator) :
  run es new_AgentOrchestrator = Some o ->
  StronglySorted string_lt (map fst (agents_ o)) /\
  forall A T P now,
    StronglySorted string_lt
      (map to_agent_id (broadcast A T P now 0 (agents_ o))).
Proof.
  intros Hrun.
  assert (Hs : keys_ascending (agents_ o)).
  { assert (H0 : keys_ascending (agents_ new_AgentOrchestrator))
      by constructor.
    revert Hrun H0. generalize new_AgentOrchestrator.
    induction es as [|e es IH]; intros o0; simpl.
    - by intros [= <-].
    - destruct (exec e o0) as [o1|] eqn:He; [|done].
      intros Hrun H0. apply (IH o1 Hrun). by apply (exec_ascending e o0). }
  split; [exact Hs|]. intros A T P now.
  rewrite broadcast_recipients. by apply filter_ascending.
Qed.

Lemma registry_iterates_ascending_witness :
  StronglySorted string_lt (map fst (agents_ descending_final)) /\
  forall A T P now,
    StronglySorted string_lt
      (map to_agent_id (broadcast A T P now 0 (agents_ descending_final))).
Proof.
  apply (registry_iterates_ascending descending_registrations
           descending_final).
  reflexivity.
Defined.

Example descending_final_keys :
  map fst (agents_ descending_final) = ["alpha"; "mu"; "zeta"].
Proof. reflexivity. Qed.

(** *** An [OnMessage] that throws *)

(** [OnMessage] is called outside any [try].  When the first queued
    message goes to a registered agent whose [OnMessage] throws on it, the
    exception leaves [ProcessMessageQueue] and the loop body, which ends
    the worker: nothing is dispatched in that pass, no other agent is
    reached, and the messages queued behind the first are gone, neither
    delivered nor left in the queue. *)
Theorem OnMessage_throw_escapes (o : AgentOrchestrator)
    (message : AgentMessage) (rest : list AgentMessage) (b : Agent) :
  message_queue_ o = message :: rest ->
  GetAgent (to_agent_id message) o = Some b ->
  r_outcome (vtable_ b (history_ b) (state_ b) (MOnMessage message))
  = Throws ->
  exists o',
    ProcessMessageQueue o = (Raise, o') /\
    OrchestratorLoop_body o = (Raise, o') /\
    (running_ o = true -> exec EvWorker o = None) /\
    message_queue_ o'
    = sent b (r_sends (vtable_ b (history_ b) (state_ b)
                         (MOnMessage message))) /\
    scheduled_agents_ o' = scheduled_agents_ o /\
    total_executes o' = total_executes o /\
    (forall k, k <> to_agent_id message -> GetAgent k o' = GetAgent k o).
Proof.
  intros Hq Hb Hthrow.
  assert (Hp : exists o', ProcessMessageQueue o = (Raise, o') /\
    message_queue_ o'
    = sent b (r_sends (vtable_ b (history_ b) (state_ b)
                         (MOnMessage message))) /\
    scheduled_agents_ o' = scheduled_agents_ o /\
    (forall k, k <> to_agent_id message -> GetAgent k o' = GetAgent k o)).
  { unfold ProcessMessageQueue. rewrite Hq. cbn [deliver].
    unfold GetAgent in *. simpl. rewrite Hb. unfold invoke. simpl.
    rewrite Hthrow. eexists. split; [reflexivity|]. simpl.
    split; [done|]. split; [done|].
    intros k Hk. by apply find_mutate_ne. }
  destruct Hp as (o' & Hp & Hq' & Hs' & Hothers).
  pose proof (ProcessMessageQueue_total o) as Htotal.
  exists o'. split; [done|].
  unfold exec, OrchestratorLoop_body. rewrite Hp.
  split; [done|]. split; [by intros ->|].
  split; [done|]. split; [done|]. split; [|done].
  rewrite Hp in Htotal. done.
Qed.

Lemma OnMessage_throw_escapes_witness :
  exists o',
    ProcessMessageQueue touchy_with_mail = (Raise, o') /\
    OrchestratorLoop_body touchy_with_mail = (Raise, o') /\
    (running_ touchy_with_mail = true -> exec EvWorker touchy_with_mail = None) /\
    message_queue_ o'
    = sent (set_orchestrator true
              (fst (invoke MInitialize (TouchyAgent "touchy" "tenant1"))))
        (r_sends
           (vtable_ (TouchyAgent "touchy" "tenant1") [MInitialize] IDLE
              (MOnMessage
                 (mkAgentMessage "agent1" "touchy" "note" "boom" 0)))) /\
    scheduled_agents_ o' = scheduled_agents_ touchy_with_mail /\
    total_executes o' = total_executes touchy_with_mail /\
    (forall k, k <> "touchy" -> GetAgent k o' = GetAgent k touchy_with_mail).
Proof.
  apply (OnMessage_throw_escapes touchy_with_mail
           (mkAgentMessage "agent1" "touchy" "note" "boom" 0)
           [mkAgentMessage "touchy" "agent1" "note" "never read" 1]
           (set_orchestrator true
              (fst (invoke MInitialize (TouchyAgent "touchy" "tenant1")))));
    reflexivity.
Defined.

Example touchy_mail_lost :
  exists o' a1,
    ProcessMessageQueue touchy_with_mail = (Raise, o') /\
    message_queue_ o' = [] /\
    GetAgent "agent1" o' = Some a1 /\ received_messages a1 = [].
Proof. eexists _, _. repeat split; reflexivity. Qed.

(** *** GetAgentsByTenant *)

Lemma find_Some_In (k : string) (a : Agent) (m : registry) :
  NoDup (map fst m) -> (find k m = Some a <-> In (k, a) m).
Proof.
  induction m as [|e m IH]; simpl; intros Hnd; [split; [done|tauto]|].
  apply NoDup_cons in Hnd as [Hnotin Hnd].
  destruct (String.eqb k (fst e)) eqn:He.
  - apply String.eqb_eq in He. subst k. split.
    + intros [= <-]. left. by destruct e.
    + intros [Heq|Hin]; [by rewrite Heq|]. exfalso. apply Hnotin.
      rewrite list_elem_of_In. apply in_map_iff. by exists (fst e, a).
  - apply String.eqb_neq in He. rewrite (IH Hnd). split; [tauto|].
    intros [Heq|Hin]; [|done]. rewrite Heq in He. done.
Qed.

(** In a registry with unique keys, [GetAgentsByTenant(t)] returns exactly
    the agents that [GetAgent] finds under some id and whose tenant is
    [t]; there are never more of them than registered agents. *)
Theorem GetAgentsByTenant_exact (tenant_id : string) (o : AgentOrchestrator) :
  registry_inv o ->
  (forall a, In a (GetAgentsByTenant tenant_id o) <->
             tenant_id_ a = tenant_id /\ exists k, GetAgent k o = Some a) /\
  (length (GetAgentsByTenant tenant_id o) <= length (agents_ o))%nat.
Proof.
  intros [Hnd _]. unfold GetAgentsByTenant, GetAgent. split.
  - intros a. rewrite in_map_iff. split.
    + intros [[k b] [<- Hin]]. apply List.filter_In in Hin as [Hin Ht].
      simpl in *. apply String.eqb_eq in Ht. split; [done|].
      exists k. by apply find_Some_In.
    + intros [Ht [k Hk]]. exists (k, a). split; [done|].
      apply List.filter_In. split; [by apply find_Some_In|].
      simpl. by apply String.eqb_eq.
  - rewrite length_map. apply List.filter_length_le.
Qed.

Lemma GetAgentsByTenant_exact_witness :
  (forall a, In a (GetAgentsByTenant "tenant1" descending_final) <->
             tenant_id_ a = "tenant1" /\
             exists k, GetAgent k descending_final = Some a) /\
  (length (GetAgentsByTenant "tenant1" descending_final)
   <= length (agents_ descending_final))%nat.
Proof.
  apply (GetAgentsByTenant_exact "tenant1" descending_final).
  apply (run_inv descending_registrations new_AgentOrchestrator);
    [apply new_AgentOrchestrator_inv|reflexivity].
Defined.

Example descending_final_tenant1 :
  map agent_id_ (GetAgentsByTenant "tenant1" descending_final)
  = ["alpha"; "zeta"].
Proof. reflexivity. Qed.

(** *** Orchestrators reached by runs *)

(** Starting from a new orchestrator, after any sequence of calls and
    worker steps that the process survives, no agent id is registered
    twice and [GetAgent(id)] returns nothing but an agent whose own id is
    [id]. *)
Theorem reachable_registry_consistent (es : list Event)
    (o : AgentOrchestrator) :
  run es new_AgentOrchestrator = Some o ->
  NoDup (map fst (agents_ o)) /\
  forall k a, GetAgent k o = Some a -> agent_id_ a = k.
Proof.
  intros Hrun.
  pose proof (run_inv es new_AgentOrchestrator o
                new_AgentOrchestrator_inv Hrun) as Hinv.
  split; [apply Hinv|]. intros k a Ha.
  by apply (find_agent_id k a (agents_ o)).
Qed.

Lemma reachable_registry_consistent_witness :
  NoDup (map fst (agents_ nameless_final)) /\
  forall k a, GetAgent k nameless_final = Some a -> agent_id_ a = k.
Proof.
  apply (reachable_registry_consistent
           (EvRegisterAgent (Some (TestAgent "" "tenant1"))
              :: nameless_events)
           nameless_final).
  reflexivity.
Defined.

End OrchestratorFacts.

(** * Properties of agents and of the agent factory *)

Module AgentFacts.
Import Agents Orchestrator Factory.

Lemma sent_unbound (a : Agent) (sends : list (string * string * string * Z)) :
  orchestrator_ a = false -> sent a sends = [].
Proof.
  intros Hb. unfold sent.
  induction sends as [|[[[to ty] pl] now] sends IH]; [done|].
  simpl. by rewrite Hb, IH.
Qed.

Lemma sent_bound (a : Agent) (sends : list (string * string * string * Z)) :
  orchestrator_ a = true ->
  sent a sends
  = map (fun send : string * string * string * Z =>
           let '(to, ty, pl, now) := send in
           mkAgentMessage (agent_id_ a) to ty pl now) sends.
Proof.
  intros Hb. unfold sent.
  induction sends as [|[[[to ty] pl] now] sends IH]; [done|].
  simpl. by rewrite Hb, IH.
Qed.

(** What an agent sends reaches the message queue only once the agent is
    registered.  A newly constructed agent is bound to no orchestrator and
    everything it sends is dropped without a trace.  The object
    [RegisterAgent] stores under a free id is bound, whatever
    [Initialize()] did, and each of its sends becomes one message from its
    own id, in the order sent. *)
Theorem SendMessage_needs_registration (agent_id tenant_id : string)
    (vtable : list Method -> AgentState -> Method -> Reaction)
    (sends : list (string * string * string * Z)) (o : AgentOrchestrator) :
  sent (new_Agent agent_id tenant_id vtable) sends = [] /\
  (GetAgent agent_id o = None ->
   exists a',
     GetAgent agent_id
       (snd (RegisterAgent (Some (new_Agent agent_id tenant_id vtable)) o))
     = Some a' /\
     length (sent a' sends) = length sends /\
     map to_agent_id (sent a' sends)
     = map (fun send : string * string * string * Z => fst (fst (fst send)))
         sends /\
     Forall (fun message => from_agent_id message = agent_id)
       (sent a' sends)).
Proof.
  split; [by apply sent_unbound|].
  intros Hfree. unfold GetAgent in *. unfold RegisterAgent. simpl.
  rewrite Hfree. unfold invoke. simpl.
  eexists. split; [apply OrchestratorProofs.find_insert_eq|].
  rewrite sent_bound by done. simpl.
  split; [apply length_map|]. split.
  - rewrite map_map. apply map_ext. by intros [[[to ty] pl] now].
  - apply Forall_forall. intros message Hm. rewrite list_elem_of_In in Hm.
    apply in_map_iff in Hm as [[[[to ty] pl] now] [<- _]]. done.
Qed.

(** *** AgentFactory *)

(** [CreateAgent] calls the creator registered last under the type tag,
    with the ids it was given; a registration under one tag leaves every
    other tag as it was, and a second registration under a tag replaces
    the first.  For a tag nobody registered it returns the null pointer and
    does not touch the process. *)
Theorem CreateAgent_uses_last_creator (type_ agent_id tenant_id : string)
    (creator : AgentCreator) (f : AgentFactory) (p : Process.Process) :
  CreateAgent type_ agent_id tenant_id (RegisterAgentType type_ creator f) p
  = creator agent_id tenant_id p /\
  (forall other, other <> type_ ->
     CreateAgent other agent_id tenant_id (RegisterAgentType type_ creator f) p
     = CreateAgent other agent_id tenant_id f p) /\
  (forall earlier,
     RegisterAgentType type_ creator (RegisterAgentType type_ earlier f)
     = RegisterAgentType type_ creator f) /\
  (creators_ f !! type_ = None ->
   CreateAgent type_ agent_id tenant_id f p = (None, p)) /\
  CreateAgent type_ agent_id tenant_id new_AgentFactory p = (None, p).
Proof.
  unfold CreateAgent, RegisterAgentType. cbn [creators_].
  split; [|split; [|split; [|split]]].
  - by rewrite lookup_insert_eq.
  - intros other Hne. by rewrite lookup_insert_ne.
  - intros earlier. cbn [creators_]. by rewrite insert_insert_eq.
  - by intros ->.
  - unfold new_AgentFactory. cbn [creators_]. by rewrite lookup_empty.
Qed.

(** A creator that makes a shared agent object gives [CreateAgent] an
    agent with the requested ids that is [IDLE], bound to no orchestrator
    and has had no method invoked.  Constructing it makes the tenant's
    store exist: an existing store is left as it is, a missing one is
    created empty; no other tenant's store and no atom id is touched. *)
Theorem CreateAgent_constructs (type_ agent_id tenant_id : string)
    (vtable : list Method -> AgentState -> Method -> Reaction)
    (f : AgentFactory) (p : Process.Process) :
  exists a p',
    CreateAgent type_ agent_id tenant_id
      (RegisterAgentType type_ (make_shared_creator vtable) f) p
    = (Some a, p') /\
    agent_id_ a = agent_id /\ tenant_id_ a = tenant_id /\
    state_ a = IDLE /\ orchestrator_ a = false /\ history_ a = [] /\
    is_Some (Process.GetAtomSpace tenant_id p') /\
    (forall s, Process.GetAtomSpace tenant_id p = Some s ->
               Process.GetAtomSpace tenant_id p' = Some s) /\
    (Process.GetAtomSpace tenant_id p = None ->
     Process.GetAtomSpace tenant_id p'
     = Some (Atoms.new_AtomSpace tenant_id)) /\
    (forall other, other <> tenant_id ->
       Process.GetAtomSpace other p' = Process.GetAtomSpace other p) /\
    Process.next_id_ p' = Process.next_id_ p.
Proof.
  eexists _, _. unfold CreateAgent, RegisterAgentType. cbn [creators_].
  rewrite lookup_insert_eq. unfold make_shared_creator, construct_Agent.
  split; [reflexivity|]. simpl. repeat split.
  - unfold Process.GetAtomSpace, Process.GetOrCreateAtomSpace.
    destruct (Process.atomspaces_ p !! tenant_id) eqn:Hs; simpl.
    + rewrite Hs. by eexists.
    + rewrite lookup_insert_eq. by eexists.
  - intros s. unfold Process.GetAtomSpace, Process.GetOrCreateAtomSpace.
    intros Hs. by rewrite Hs.
  - unfold Process.GetAtomSpace, Process.GetOrCreateAtomSpace.
    intros Hs. rewrite Hs. simpl. by rewrite lookup_insert_eq.
  - intros other Hne.
    unfold Process.GetAtomSpace, Process.GetOrCreateAtomSpace.
    destruct (Process.atomspaces_ p !! tenant_id); simpl; [done|].
    by rewrite lookup_insert_ne.
  - unfold Process.GetOrCreateAtomSpace.
    by destruct (Process.atomspaces_ p !! tenant_id).
Qed.

End AgentFacts.
